(** * generate-package-exports: the export aggregator of @radroots/dev

    A shallow embedding of [src/utils.ts] and of
    [src/generate-package-exports/main.ts], and the properties of the
    aggregator that the specification states.

    JavaScript strings are sequences of UTF-16 code units; they are modelled
    as [list N].  The functions of the JavaScript runtime that the script
    calls and that cannot be written out in full (the Unicode case tables
    behind [String.prototype.toUpperCase], the collation behind
    [String.prototype.localeCompare]) are the fields of the class
    [JsRuntime], and the [fast-glob] matcher is a parameter of the script;
    the functions of [node:path] are written out for a POSIX host.  Logging
    through [console.log] has no influence on the result and is left out. *)

From Stdlib Require Import ZArith NArith Ascii String Sorting.Sorted Sorting.Permutation.
From stdpp Require Import base list gmap.

Local Open Scope N_scope.

(* ===================================================================== *)
(** ** JavaScript strings *)
(* ===================================================================== *)

Abbreviation code_unit := N.
Abbreviation jsstring := (list N).

(** A string literal of the source, as its code units (ASCII literals only). *)
Definition js (s : string) : jsstring :=
  List.map N_of_ascii (list_ascii_of_string s).

Definition c_dquote : code_unit := 34.
Definition c_newline : code_unit := 10.
Definition c_minus : code_unit := 45.
Definition c_dot : code_unit := 46.
Definition c_slash : code_unit := 47.
Definition c_backslash : code_unit := 92.
Definition c_underscore : code_unit := 95.

Definition jsstring_eqb (a b : jsstring) : bool := bool_decide (a = b).

(** [s.startsWith(p)] *)
Fixpoint startsWith (p s : jsstring) : bool :=
  match p, s with
  | [], _ => true
  | _ :: _, [] => false
  | a :: p', b :: s' => (a =? b) && startsWith p' s'
  end.

(** [s.includes(c)] for a one-character needle *)
Definition includes (c : code_unit) (s : jsstring) : bool :=
  existsb (N.eqb c) s.

(** [s.charAt(0)]: the first code unit as a string, or the empty string *)
Definition charAt0 (s : jsstring) : jsstring := take 1 s.

(** [s.slice(1)] *)
Definition slice1 (s : jsstring) : jsstring := drop 1 s.

(** [s.slice(0, -n)] for [n >= 0].  [-0] is [0] in JavaScript, so
    [s.slice(0, -0)] is [s.slice(0, 0)], the empty string. *)
Definition slice_0_neg (n : nat) (s : jsstring) : jsstring :=
  match n with
  | O => []
  | _ => take (length s - n) s
  end.

(** [s.split(sep)] where [sep] matches exactly the single code units that
    satisfy [p]: a character class such as [/[_-]/], or a one-character
    string.  The result is never empty: [''.split(sep)] is [['']]. *)
Fixpoint split_on (p : code_unit -> bool) (s : jsstring) : list jsstring :=
  match s with
  | [] => [[]]
  | c :: s' =>
      if p c then [] :: split_on p s'
      else match split_on p s' with
           | [] => [[c]]
           | part :: parts => (c :: part) :: parts
           end
  end.

(** [parts.join(sep)] *)
Fixpoint join (sep : jsstring) (parts : list jsstring) : jsstring :=
  match parts with
  | [] => []
  | [p] => p
  | p :: rest => p ++ sep ++ join sep rest
  end.

(** [s.replaceAll(a, b)] for one-character [a] and [b] *)
Definition replaceAll (a b : code_unit) (s : jsstring) : jsstring :=
  List.map (fun c => if c =? a then b else c) s.

(** ASCII character classes *)
Definition is_digit (c : code_unit) : bool := (48 <=? c) && (c <=? 57).
Definition is_upper_letter (c : code_unit) : bool := (65 <=? c) && (c <=? 90).
Definition is_lower_letter (c : code_unit) : bool := (97 <=? c) && (c <=? 122).
Definition is_letter (c : code_unit) : bool := is_upper_letter c || is_lower_letter c.
Definition is_alnum (c : code_unit) : bool := is_letter c || is_digit c.

(** Lexicographic comparison of two sequences of numbers *)
Fixpoint lex_compare (a b : list N) : comparison :=
  match a, b with
  | [], [] => Eq
  | [], _ :: _ => Lt
  | _ :: _, [] => Gt
  | x :: a', y :: b' =>
      match x ?= y with
      | Eq => lex_compare a' b'
      | o => o
      end
  end.

(* ===================================================================== *)
(** ** The runtime the script runs on *)
(* ===================================================================== *)

(** Entries of the file system, keyed by absolute normalised path. *)
Inductive node : Type :=
  | Dir
  | File (contents : jsstring).

Class JsRuntime : Type := {
  (** [String.prototype.toUpperCase] *)
  toUpperCase : jsstring -> jsstring;
  (** [String.prototype.localeCompare]: negative, zero or positive *)
  localeCompare : jsstring -> jsstring -> Z
}.

(** *** What the proofs use of [toUpperCase] *)

Definition ascii_upper (c : code_unit) : code_unit :=
  if (97 <=? c) && (c <=? 122) then c - 32 else c.

Definition is_sep (c : code_unit) : bool := (c =? c_underscore) || (c =? c_minus).

(** [''.toUpperCase()] is [''], and on a single ASCII character
    [toUpperCase] maps [a-z] to [A-Z] and leaves the others alone. *)
Record upper_ascii_law `{JsRuntime} : Prop := {
  upper_ascii_nil : toUpperCase [] = [];
  upper_ascii_unit : forall c, c < 128 -> toUpperCase [c] = [ascii_upper c]
}.

(** [''.toUpperCase()] is [''] ; the upper-case form of a one-unit string is
    not empty, contains ['-'] or ['_'] only if the unit was one, and starts
    with a unit that is its own upper-case form. *)
Record upper_stable_law `{JsRuntime} : Prop := {
  upper_nil : toUpperCase [] = [];
  upper_no_sep : forall c, is_sep c = false ->
                 forallb (fun d => negb (is_sep d)) (toUpperCase [c]) = true;
  upper_head : forall c, exists d rest,
               toUpperCase [c] = d :: rest /\ toUpperCase [d] = [d]
}.

(* ===================================================================== *)
(** ** src/utils.ts *)
(* ===================================================================== *)

Section Utils.
Context `{RT : JsRuntime}.

(** [part => part.charAt(0).toUpperCase() + part.slice(1)] *)
Definition capitalise (part : jsstring) : jsstring :=
  toUpperCase (charAt0 part) ++ slice1 part.

(** [input.split(/[_-]/).map(part => ...).join('')] *)
Definition fmtu (input : jsstring) : jsstring :=
  join [] (List.map capitalise (split_on is_sep input)).

(** [u] is empty or starts with a unit that is its own upper-case
    form. *)
Definition head_fixed (u : jsstring) : Prop :=
  match u with
  | [] => True
  | d :: _ => toUpperCase [d] = [d]
  end.

End Utils.

(* ===================================================================== *)
(** ** node:path on a POSIX host *)
(* ===================================================================== *)

Module NodePath.

Definition is_slash (c : code_unit) : bool := c =? c_slash.
Definition dotdot : jsstring := [c_dot; c_dot].

Definition isAbsolute (p : jsstring) : bool := startsWith [c_slash] p.

Definition endsWithSlash (p : jsstring) : bool :=
  match last p with
  | Some c => is_slash c
  | None => false
  end.

(** The loop of [normalizeString], one path segment at a time; [res] is
    the stack of the segments kept so far, the last one on top. *)
Fixpoint normalizeSegments (allowAboveRoot : bool) (res segs : list jsstring)
  : list jsstring :=
  match segs with
  | [] => rev res
  | seg :: segs' =>
      if jsstring_eqb seg [] || jsstring_eqb seg [c_dot] then
        normalizeSegments allowAboveRoot res segs'
      else if jsstring_eqb seg dotdot then
        match res with
        | top :: res' =>
            if jsstring_eqb top dotdot then
              normalizeSegments allowAboveRoot
                (if allowAboveRoot then dotdot :: res else res) segs'
            else normalizeSegments allowAboveRoot res' segs'
        | [] =>
            normalizeSegments allowAboveRoot
              (if allowAboveRoot then [dotdot] else []) segs'
        end
      else normalizeSegments allowAboveRoot (seg :: res) segs'
  end.

Definition normalizeString (p : jsstring) (allowAboveRoot : bool) : jsstring :=
  join [c_slash] (normalizeSegments allowAboveRoot [] (split_on is_slash p)).

(** [path.normalize(p)] *)
Definition normalize (p : jsstring) : jsstring :=
  match p with
  | [] => [c_dot]
  | _ =>
      let n := normalizeString p (negb (isAbsolute p)) in
      match n with
      | [] =>
          if isAbsolute p then [c_slash]
          else if endsWithSlash p then [c_dot; c_slash] else [c_dot]
      | _ =>
          let n' := if endsWithSlash p then n ++ [c_slash] else n in
          if isAbsolute p then c_slash :: n' else n'
      end
  end.

(** [path.join(...parts)]: the non-empty parts joined by ['/'], normalised *)
Definition join_paths (parts : list jsstring) : jsstring :=
  match List.filter (fun p => negb (jsstring_eqb p [])) parts with
  | [] => [c_dot]
  | ps => normalize (join [c_slash] ps)
  end.

(** The right-to-left scan of [path.resolve]: stops at the first absolute
    argument. *)
Fixpoint resolve_scan (args_rev : list jsstring) (resolved : jsstring)
  : jsstring * bool :=
  match args_rev with
  | [] => (resolved, false)
  | p :: rest =>
      match p with
      | [] => resolve_scan rest resolved
      | _ =>
          let resolved' := p ++ [c_slash] ++ resolved in
          if isAbsolute p then (resolved', true) else resolve_scan rest resolved'
      end
  end.

(** [path.resolve(...args)] in a process whose working directory is [cwd] *)
Definition resolve (cwd : jsstring) (args : list jsstring) : jsstring :=
  let '(r, abs) := resolve_scan (rev args) [] in
  let '(r, abs) := if abs then (r, true)
                   else (cwd ++ [c_slash] ++ r, isAbsolute cwd) in
  let n := normalizeString r (negb abs) in
  if abs then c_slash :: n
  else match n with [] => [c_dot] | _ => n end.

Definition segments (p : jsstring) : list jsstring :=
  List.filter (fun s => negb (jsstring_eqb s [])) (split_on is_slash p).

Fixpoint strip_common (a b : list jsstring) : list jsstring * list jsstring :=
  match a, b with
  | x :: a', y :: b' => if jsstring_eqb x y then strip_common a' b' else (a, b)
  | _, _ => (a, b)
  end.

(** [path.relative(from, to)].  The source scans both resolved paths
    character by character for the last common separator; on resolved
    (absolute, normalised) paths that is: drop the common leading
    segments, climb with one ['..'] per segment left of [from], then
    descend along what is left of [to]. *)
Definition relative (cwd from to : jsstring) : jsstring :=
  if jsstring_eqb from to then []
  else
    let from' := resolve cwd [from] in
    let to' := resolve cwd [to] in
    if jsstring_eqb from' to' then []
    else
      let '(up, down) := strip_common (segments from') (segments to') in
      join [c_slash] (List.map (fun _ => dotdot) up ++ down).

(** [path.basename(p)]: the last non-empty segment *)
Definition basename (p : jsstring) : jsstring :=
  default [] (last (segments p)).

(** Index of the last occurrence of [c] *)
Fixpoint lastIndexOf (c : code_unit) (s : jsstring) : option nat :=
  match s with
  | [] => None
  | x :: s' =>
      match lastIndexOf c s' with
      | Some i => Some (S i)
      | None => if x =? c then Some O else None
      end
  end.

(** [path.extname(p)]: from the last ['.'] of the base name on, and empty
    when there is no dot, when the only dot leads the name, or when the
    name is ['..']. *)
Definition extname (p : jsstring) : jsstring :=
  let b := basename p in
  match lastIndexOf c_dot b with
  | None => []
  | Some O => []
  | Some i => if jsstring_eqb b dotdot then [] else drop i b
  end.

(** [path.dirname(p)] of an absolute normalised path *)
Definition dirname (p : jsstring) : jsstring :=
  c_slash :: join [c_slash] (removelast (segments p)).

End NodePath.

(* ===================================================================== *)
(** ** The process and its file system *)
(* ===================================================================== *)

Record World : Type := {
  cwd : jsstring;                    (* process.cwd() *)
  files : gmap jsstring node
}.

Inductive errno : Type := ENOENT | EISDIR | ENOTDIR.

Inductive js_error : Type :=
  | PathNotFound (path : jsstring)   (* new Error(`Path not found: ${path}`) *)
  | SystemError (code : errno) (path : jsstring).

Inductive result (A : Type) : Type :=
  | Throw (e : js_error)
  | Return (a : A).
Arguments Throw {A} e.
Arguments Return {A} a.

Definition bind {A B : Type} (r : result A) (k : A -> result B) : result B :=
  match r with
  | Throw e => Throw e
  | Return a => k a
  end.

Notation "x <- e ;; k" := (bind e (fun x => k))
  (at level 61, e at next level, k at level 200, right associativity).

(** What a path names in the file system; a trailing ['/'] asks for a
    directory. *)
Definition lookup_path (w : World) (p : jsstring) : option node :=
  match p with
  | [] => None
  | _ =>
      match files w !! NodePath.resolve (cwd w) [p] with
      | Some (File c) => if NodePath.endsWithSlash p then None else Some (File c)
      | o => o
      end
  end.

(** [existsSync(path)] *)
Definition existsSync (w : World) (p : jsstring) : bool :=
  match lookup_path w p with
  | Some _ => true
  | None => false
  end.

(** The world once the file at [p] holds [contents] and nothing else *)
Definition with_file (w : World) (p contents : jsstring) : World :=
  {| cwd := cwd w;
     files := <[NodePath.resolve (cwd w) [p] := File contents]> (files w) |}.

(** [writeFileSync(path, contents, "utf8")]: creates the file when its
    directory exists, replaces its contents when the file exists.  Paths are
    resolved by their text, as [path.join] leaves them (normalised, without
    ['..'] through a directory that may be missing); permissions are not
    modelled. *)
Definition writeFileSync (w : World) (p contents : jsstring) : result World :=
  let key := NodePath.resolve (cwd w) [p] in
  let written := with_file w p contents in
  match p with
  | [] => Throw (SystemError ENOENT p)
  | _ =>
      match files w !! key with
      | Some Dir => Throw (SystemError EISDIR p)
      | Some (File _) =>
          if NodePath.endsWithSlash p then Throw (SystemError EISDIR p)
          else Return written
      | None =>
          if NodePath.endsWithSlash p then Throw (SystemError EISDIR p)
          else match files w !! NodePath.dirname key with
               | Some Dir => Return written
               | Some (File _) => Throw (SystemError ENOTDIR p)
               | None => Throw (SystemError ENOENT p)
               end
      end
  end.

(** *** src/utils.ts, the functions on the file system *)

Definition fs_write (w : World) (path contents : jsstring) : result World :=
  writeFileSync w path contents.

Definition paths_assert (w : World) (parts : list jsstring) : result jsstring :=
  let path := NodePath.join_paths parts in
  if negb (existsSync w path) then Throw (PathNotFound path)
  else Return path.

Definition paths (parts : list jsstring) : jsstring :=
  NodePath.join_paths parts.

(* ===================================================================== *)
(** ** src/generate-package-exports/main.ts *)
(* ===================================================================== *)

Record MainArgv : Type := {
  argv_dir : jsstring;
  argv_out : jsstring;
  argv_is_module : bool;
  argv_include_bin : bool;
  argv_types_only : bool;
  argv_dir_skip : list jsstring;
  argv_include_glob : list jsstring;
  argv_ignore_glob : list jsstring
}.

(** [p.replace(/\\/g, '/')] *)
Definition to_posix (p : jsstring) : jsstring := replaceAll c_backslash c_slash p.

(** Whether [s] ends with the lower-case ASCII word [word], letter case
    ignored: the match of [/word$/i]. *)
Definition endsWith_ci (word s : jsstring) : bool :=
  (length word <=? length s)%nat &&
  forallb (fun '(p, c) => (c =? p) || (c =? ascii_upper p))
          (zip word (drop (length s - length word) s)).

(** [s.replace(/\.(ts|svelte)$/i, '')] *)
Definition strip_module_ext (s : jsstring) : jsstring :=
  if endsWith_ci (js ".ts") s then take (length s - 3) s
  else if endsWith_ci (js ".svelte") s then take (length s - 7) s
  else s.

(** [Array.prototype.sort(cmp)]: a stable sort, written as the insertion
    sort that every stable sort agrees with when [cmp] orders the elements
    consistently; [x] goes before the first element it does not compare
    greater than. *)
Fixpoint sort_insert (cmp : jsstring -> jsstring -> Z) (x : jsstring)
  (l : list jsstring) : list jsstring :=
  match l with
  | [] => [x]
  | y :: l' => if (cmp x y <=? 0)%Z then x :: l else y :: sort_insert cmp x l'
  end.

Fixpoint array_sort (cmp : jsstring -> jsstring -> Z) (l : list jsstring)
  : list jsstring :=
  match l with
  | [] => []
  | x :: l' => sort_insert cmp x (array_sort cmp l')
  end.

Definition header : jsstring :=
  js "// Created by @radroots/dev generate-package-exports" ++ [c_newline; c_newline].

(** [fg(patterns, { cwd, ignore, onlyFiles: true, dot: false,
    followSymbolicLinks: true, unique: true, absolute: false })]: the files
    under [cwd] that the matcher selects, relative to [cwd].  This is the
    answer of a call that returns; a call that throws (the matcher rejects
    an empty pattern with a [TypeError]) ends the run there and is not
    described by a [matcher]. *)
Abbreviation matcher :=
  (list jsstring -> jsstring -> list jsstring -> gmap jsstring node -> list jsstring).

Section Main.
Context `{RT : JsRuntime}.
Variable fg : matcher.
Variable argv : MainArgv.

(** [(argv.types_only ? ['**/types.ts'] : argv.include_glob).slice()] *)
Definition include_glob : list jsstring :=
  if argv_types_only argv then [js "**/types.ts"] else argv_include_glob argv.

(** One pass of [for (const d of argv.dir_skip)] *)
Definition push_dir_skip (ignore : list jsstring) (d : jsstring) : list jsstring :=
  if includes 42 d || includes 63 d || includes 91 d then ignore ++ [d]
  else ignore ++ [js "**/" ++ d ++ js "/**"].

(** [ignore_glob] once the two [if] blocks have run *)
Definition ignore_glob : list jsstring :=
  let ignore0 := argv_ignore_glob argv in
  let ignore1 := if negb (argv_include_bin argv) then ignore0 ++ [js "**/bin/**"]
                 else ignore0 in
  match argv_dir_skip argv with
  | [] => ignore1
  | ds => fold_left push_dir_skip ds ignore1
  end.

(** [rel_from_out] after the [if] that prepends ['./'] *)
Definition dot_prefixed (rel : jsstring) : jsstring :=
  if negb (startsWith [c_dot] rel) && negb (startsWith [c_slash] rel)
  then js "./" ++ rel else rel.

(** [rel_from_out] for one matched file *)
Definition rel_from_out (w : World) (base_path out_path rel_file : jsstring)
  : jsstring :=
  let abs_no_ext :=
    strip_module_ext (NodePath.resolve (cwd w) [base_path; rel_file]) in
  dot_prefixed (to_posix (NodePath.relative (cwd w) out_path abs_no_ext)).

(** [named] in the [.svelte] branch *)
Definition named (filename_base : jsstring) : jsstring :=
  fmtu (replaceAll c_minus c_underscore filename_base).

(** The two [push] calls: the line for a file of extension [ext], if any *)
Definition emit (ext filename_base rel : jsstring) : option jsstring :=
  if jsstring_eqb ext (js ".ts") then
    Some (js "export * from " ++ [c_dquote] ++ rel
          ++ (if argv_is_module argv then js ".js" else []) ++ [c_dquote])
  else if jsstring_eqb ext (js ".svelte") then
    Some (js "export { default as " ++ named filename_base ++ js " } from "
          ++ [c_dquote] ++ rel ++ [c_dquote])
  else None.

(** The body of [for (const rel_file of files)]: [None] where the source
    pushes nothing. *)
Definition loop_body (w : World) (base_path out_path rel_file : jsstring)
  : option jsstring :=
  let filename := NodePath.basename rel_file in
  if startsWith [c_underscore] filename then None
  else
    let ext := NodePath.extname filename in
    let filename_base := slice_0_neg (length ext) filename in
    emit ext filename_base (rel_from_out w base_path out_path rel_file).

(** [package_files] when the loop is over *)
Definition package_files (w : World) (base_path out_path : jsstring)
  (matched : list jsstring) : list jsstring :=
  fold_left (fun acc rel_file =>
               match loop_body w base_path out_path rel_file with
               | Some line => acc ++ [line]
               | None => acc
               end) matched [].

(** The text handed to [fs_write] *)
Definition artifact (lines : list jsstring) : jsstring :=
  header ++ join [c_newline] lines ++ [c_newline].

Definition main_gen_package_exports (w : World) : result World :=
  base_path <- paths_assert w [cwd w; argv_dir argv] ;;
  out_path <- paths_assert w (cwd w :: split_on NodePath.is_slash (argv_out argv)) ;;
  export_path <- paths_assert w [out_path; js "index.ts"] ;;
  let matched := fg include_glob base_path ignore_glob (files w) in
  let lines := package_files w base_path out_path matched in
  let sorted := array_sort localeCompare lines in
  fs_write w export_path (artifact sorted).

(** The lines the run sorts and writes *)
Definition run_lines (w : World) (base_path out_path : jsstring) : list jsstring :=
  array_sort localeCompare
    (package_files w base_path out_path
       (fg include_glob base_path ignore_glob (files w))).

End Main.

(* ===================================================================== *)
(** ** A reference runtime for ASCII text *)
(* ===================================================================== *)

Module Ascii_runtime.

(** [toUpperCase] on ASCII text; other code units are left as they are. *)
Definition upper (s : jsstring) : jsstring := List.map ascii_upper s.

(** The printable ASCII symbols and digits in the order of the root
    collation (space, underscore, hyphen, comma, semicolon, colon,
    exclamation and question marks, full stop, the quotes, the brackets,
    at sign, asterisk, slashes, ampersand, hash, percent, grave, caret,
    plus, less, equals, greater, bar, tilde, dollar, then 0 to 9), as
    code units; the letters follow. *)
Definition symbol_order : list code_unit :=
  [32; 95; 45; 44; 59; 58; 33; 63; 46; 39; 34; 40; 41; 91; 93; 123; 125;
   64; 42; 47; 92; 38; 35; 37; 96; 94; 43; 60; 61; 62; 124; 126; 36;
   48; 49; 50; 51; 52; 53; 54; 55; 56; 57].

Fixpoint index_of (c : code_unit) (l : list code_unit) : option N :=
  match l with
  | [] => None
  | x :: l' => if x =? c then Some 0
               else match index_of c l' with
                    | Some i => Some (N.succ i)
                    | None => None
                    end
  end.

(** First level: the letter whatever its case, after symbols and digits. *)
Definition primary (c : code_unit) : N :=
  if is_lower_letter c then 100 + (c - 97)
  else if is_upper_letter c then 100 + (c - 65)
  else match index_of c symbol_order with
       | Some i => i
       | None => 1000 + c
       end.

(** Third level: lower case before upper case. *)
Definition tertiary (c : code_unit) : N := if is_upper_letter c then 1 else 0.

(** [localeCompare] on printable ASCII text: first levels first, case last. *)
Definition collate (a b : jsstring) : Z :=
  match lex_compare (List.map primary a) (List.map primary b) with
  | Lt => (-1)%Z
  | Gt => 1%Z
  | Eq =>
      match lex_compare (List.map tertiary a) (List.map tertiary b) with
      | Lt => (-1)%Z
      | Gt => 1%Z
      | Eq => 0%Z
      end
  end.

#[export] Instance runtime : JsRuntime :=
  {| toUpperCase := upper; localeCompare := collate |}.

(** A matcher that selects the files [l] whatever it is asked. *)
Definition answering (l : list jsstring) : matcher := fun _ _ _ _ => l.

End Ascii_runtime.

(* ===================================================================== *)
(** ** Character classes of the specification *)
(* ===================================================================== *)

(** The base names of the pattern [[a-zA-Z][a-zA-Z0-9_-]*] *)
Definition plain_basename (b : jsstring) : bool :=
  match b with
  | [] => false
  | c :: rest => is_letter c && forallb (fun d => is_alnum d || is_sep d) rest
  end.

(** An identifier name written in ASCII: a letter, [$] or [_], then
    letters, digits, [$] and [_]. *)
Definition valid_identifier (s : jsstring) : bool :=
  match s with
  | [] => false
  | c :: rest =>
      (is_letter c || (c =? 36) || (c =? c_underscore))
      && forallb (fun d => is_alnum d || (d =? 36) || (d =? c_underscore)) rest
  end.

Definition no_sep (s : jsstring) : bool := forallb (fun c => negb (is_sep c)) s.

(** *** Code point order *)

Definition is_high_surrogate (c : code_unit) : bool := (55296 <=? c) && (c <=? 56319).
Definition is_low_surrogate (c : code_unit) : bool := (56320 <=? c) && (c <=? 57343).

(** The code points of a string: a high surrogate followed by a low one is
    one code point, every other code unit stands for itself. *)
Fixpoint code_points (s : jsstring) : list N :=
  match s with
  | [] => []
  | c :: s' =>
      match s' with
      | d :: s'' =>
          if is_high_surrogate c && is_low_surrogate d
          then (65536 + (c - 55296) * 1024 + (d - 56320)) :: code_points s''
          else c :: code_points s'
      | [] => [c]
      end
  end.

Definition codepoint_leb (a b : jsstring) : bool :=
  match lex_compare (code_points a) (code_points b) with
  | Gt => false
  | _ => true
  end.

(** Non-decreasing for [leb], neighbour by neighbour *)
Fixpoint sortedb (leb : jsstring -> jsstring -> bool) (l : list jsstring) : bool :=
  match l with
  | [] => true
  | x :: l' =>
      match l' with
      | [] => true
      | y :: _ => leb x y && sortedb leb l'
      end
  end.

(** *** The words of the specification *)

(** One exclusion glob for an entry of [skip_dirs]: the entry itself when it
    has wildcard syntax (a star, a question mark or an opening bracket),
    and the entry as a directory at any depth otherwise. *)
Definition has_wildcard (d : jsstring) : bool :=
  includes 42 d || includes 63 d || includes 91 d.

Definition skip_dir_glob (d : jsstring) : jsstring :=
  if has_wildcard d then d else js "**/" ++ d ++ js "/**".

(** The effective exclude-pattern list as the specification words it *)
Definition spec_exclude_patterns (argv : MainArgv) : list jsstring :=
  argv_ignore_glob argv
  ++ (if argv_include_bin argv then [] else [js "**/bin/**"])
  ++ List.map skip_dir_glob (argv_dir_skip argv).

(** The line of a plain module and the line of a component module *)
Definition plain_line (rel suffix : jsstring) : jsstring :=
  js "export * from " ++ [c_dquote] ++ rel ++ suffix ++ [c_dquote].

Definition component_line (name rel : jsstring) : jsstring :=
  js "export { default as " ++ name ++ js " } from " ++ [c_dquote] ++ rel ++ [c_dquote].

(** *** Runs *)

(** The three paths the script asserts exist, and the index is a file. *)
Definition run_ready (argv : MainArgv) (w : World) (base_path out_path : jsstring)
  : Prop :=
  paths_assert w [cwd w; argv_dir argv] = Return base_path
  /\ paths_assert w (cwd w :: split_on NodePath.is_slash (argv_out argv))
     = Return out_path
  /\ exists old, lookup_path w (paths [out_path; js "index.ts"]) = Some (File old).

(** A working directory [/w] with the package sources in [/w/src], given by
    the names of the files in [src]; [with_index] tells whether
    [src/index.ts] is there already. *)
Definition package_tree (with_index : bool) (names : list jsstring) : World :=
  {| cwd := js "/w";
     files :=
       list_to_map
         ([(js "/w", Dir); (js "/w/src", Dir)]
          ++ (if with_index then [(js "/w/src/index.ts", File [])] else [])
          ++ List.map (fun n => (js "/w/src/" ++ n, File [])) names) |}.

(** The default arguments of the command line, [--dir src --out src] *)
Definition default_argv : MainArgv :=
  {| argv_dir := js "src";
     argv_out := js "src";
     argv_is_module := true;
     argv_include_bin := false;
     argv_types_only := false;
     argv_dir_skip := [];
     argv_include_glob := [js "**/*.{ts,svelte}"];
     argv_ignore_glob :=
       [js "**/_*"; js "**/_*/**"; js "**/index.ts"; js "**/global.d.ts";
        js "**/*.d.ts"; js "**/node_modules/**"; js "**/.*/**";
        js "**/dist/**"; js "**/build/**"] |}.


(** Some package trees *)
Definition tree_a_card : World :=
  package_tree true [js "a.ts"; js "user-card.svelte"].
Definition tree_scenario_a : World :=
  package_tree true [js "a.ts"; js "_b.ts"; js "card.svelte"].
Definition tree_mixed_case : World :=
  package_tree true [js "B.ts"; js "a.ts"].
Definition tree_digit : World :=
  package_tree true [js "1foo.svelte"; js "a.b.svelte"].
Definition tree_no_index : World :=
  package_tree false [js "a.ts"].



(** [e] is the word [word] in some letter case *)
Definition same_word_ci (word e : jsstring) : bool :=
  (length e =? length word)%nat && endsWith_ci word e.

(** *** More of src/utils.ts *)

Definition is_surrogate (c : code_unit) : bool :=
  is_high_surrogate c || is_low_surrogate c.

(** What a string becomes when it is encoded as UTF-8 and decoded again: a
    surrogate that is not part of a pair is replaced by U+FFFD. *)
Fixpoint toWellFormed (s : jsstring) : jsstring :=
  match s with
  | [] => []
  | c :: s' =>
      match s' with
      | d :: s'' =>
          if is_high_surrogate c && is_low_surrogate d
          then c :: d :: toWellFormed s''
          else (if is_surrogate c then 65533 else c) :: toWellFormed s'
      | [] => [if is_surrogate c then 65533 else c]
      end
  end.

(** [readFileSync(path, "utf8")], on a file system whose files hold the
    strings that were written to them as UTF-8 *)
Definition readFileSync (w : World) (p : jsstring) : result jsstring :=
  match p with
  | [] => Throw (SystemError ENOENT p)
  | _ =>
      match files w !! NodePath.resolve (cwd w) [p] with
      | Some Dir => Throw (SystemError EISDIR p)
      | Some (File c) =>
          if NodePath.endsWithSlash p then Throw (SystemError ENOTDIR p)
          else Return (toWellFormed c)
      | None => Throw (SystemError ENOENT p)
      end
  end.

Definition fs_read (w : World) (path : jsstring) : result jsstring :=
  readFileSync w path.

(** The longest string of the engine (V8 on a 64-bit host): 2^29 - 24 code
    units *)
Definition max_string_length : Z := 536870888.

(** [s.repeat(count)] for an integer [count]: a negative count throws a
    [RangeError], and so does a result longer than the longest string
    ([Invalid string length]); both are rendered here as [None]. *)
Definition repeat_string (s : jsstring) (count : Z) : option jsstring :=
  if (count <? 0)%Z then None
  else if (max_string_length <? Z.of_nat (length s) * count)%Z then None
  else Some (concat (replicate (Z.to_nat count) s)).

(** [taba(level)]: ['    '.repeat(level)] *)
Definition taba (level : Z) : option jsstring := repeat_string (js "    ") level.

(** *** Comparators *)

(** [cmp] orders the strings of [l]: any two compare one way or the other,
    the comparison is transitive, and two strings of [l] that compare both
    ways are the same string. *)
Record orders (cmp : jsstring -> jsstring -> Z) (l : list jsstring) : Prop := {
  orders_total : forall a b, (cmp a b <= 0)%Z \/ (cmp b a <= 0)%Z;
  orders_trans : forall a b c, (cmp a b <= 0)%Z -> (cmp b c <= 0)%Z -> (cmp a c <= 0)%Z;
  orders_antisym : forall a b, In a l -> In b l ->
                   (cmp a b <= 0)%Z -> (cmp b a <= 0)%Z -> a = b
}.

Definition is_newline (c : code_unit) : bool := c =? c_newline.

(** *** Paths segment by segment *)

(** A path segment that normalisation keeps as it is: not empty, without
    ['/'], and neither ['.'] nor ['..'] *)
Definition proper_segment (s : jsstring) : bool :=
  negb (jsstring_eqb s []) && negb (jsstring_eqb s [c_dot])
  && negb (jsstring_eqb s NodePath.dotdot)
  && forallb (fun c => negb (NodePath.is_slash c)) s.

(** The segments of a path once normalised, for an absolute path *)
Definition normal_segments (p : jsstring) : list jsstring :=
  NodePath.normalizeSegments false [] (split_on NodePath.is_slash p).

(** Climbing out of [from_dirs] and down into [to_segs], after their common
    leading segments *)
Definition climb (from_dirs to_segs : list jsstring) : jsstring :=
  let '(up, down) := NodePath.strip_common from_dirs to_segs in
  join [c_slash] (List.map (fun _ => NodePath.dotdot) up ++ down).

(* ===================================================================== *)
(** ** The theme generator: layers_to_css_vars *)
(* ===================================================================== *)

(** [s.replace(/c+/g, r)] for a character [c] and a one-character [r]: every
    maximal run of [c] becomes one [r], put where the run ends. *)
Fixpoint replace_runs (c r : code_unit) (s : jsstring) : jsstring :=
  match s with
  | [] => []
  | x :: s' =>
      if x =? c then
        match s' with
        | y :: _ => if y =? c then replace_runs c r s' else r :: replace_runs c r s'
        | [] => [r]
        end
      else x :: replace_runs c r s'
  end.

(** [s.replace(/-$/, "")] *)
Definition strip_final_minus (s : jsstring) : jsstring :=
  match last s with
  | Some c => if c =? c_minus then removelast s else s
  | None => s
  end.

(** [var_name] for the index [idx] of a layer and the entry [name] of its
    surface or glyphs *)
Definition var_name (idx : jsstring) (is_glyphs : bool) (name : jsstring) : jsstring :=
  strip_final_minus
    (replace_runs c_minus c_minus
       (replace_runs c_underscore c_minus
          (js "color-ly" ++ idx ++ (if is_glyphs then js "-gl" else [])
           ++ js "-" ++ name))).

(** No two neighbours of [s] are both [c]. *)
Fixpoint no_double (c : code_unit) (s : jsstring) : bool :=
  match s with
  | [] => true
  | x :: s' =>
      match s' with
      | y :: _ => negb ((x =? c) && (y =? c)) && no_double c s'
      | [] => true
      end
  end.

Inductive color_format : Type := Hsl | Rgb.

Definition format_name (f : color_format) : jsstring :=
  match f with Hsl => js "hsl" | Rgb => js "rgb" end.

Section Theme.
(** The numbers of the theme files and their conversion to a string *)
Variable number : Type.
Variable number_toString : number -> jsstring.

Record ColorTriple : Type := { triple0 : number; triple1 : number; triple2 : number }.

(** A layer, with the entries of [surface] and of [glyphs] in the order
    [Object.entries] lists them *)
Record Layer : Type := {
  surface : list (jsstring * ColorTriple);
  glyphs : list (jsstring * ColorTriple)
}.

(** [key.split("_")[1]], when it is neither undefined nor empty *)
Definition layer_index (key : jsstring) : option jsstring :=
  match split_on (N.eqb c_underscore) key with
  | _ :: idx :: _ => match idx with [] => None | _ => Some idx end
  | _ => None
  end.

(** [value] *)
Definition triple_value (f : color_format) (t : ColorTriple) : jsstring :=
  match f with
  | Hsl => number_toString (triple0 t) ++ js ", " ++ number_toString (triple1 t)
           ++ js "%, " ++ number_toString (triple2 t) ++ js "%"
  | Rgb => join (js ", ") [number_toString (triple0 t); number_toString (triple1 t);
                            number_toString (triple2 t)]
  end.

(** The string pushed for one entry *)
Definition css_var (f : color_format) (idx : jsstring) (is_glyphs : bool)
  (entry : jsstring * ColorTriple) : jsstring :=
  js "--" ++ var_name idx is_glyphs (fst entry) ++ js ": " ++ format_name f
  ++ js "(" ++ triple_value f (snd entry) ++ js ");".

(** The loop over one category of a layer *)
Definition push_category (f : color_format) (idx : jsstring) (is_glyphs : bool)
  (entries : list (jsstring * ColorTriple)) (vars : list jsstring) : list jsstring :=
  fold_left (fun vars entry => vars ++ [css_var f idx is_glyphs entry]) entries vars.

(** [layers_to_css_vars(layers, format)], the layers in the order [for ... in]
    enumerates them *)
Definition layers_to_css_vars (layers : list (jsstring * Layer)) (f : color_format)
  : list jsstring :=
  fold_left
    (fun vars '(key, layer) =>
       match layer_index key with
       | None => vars
       | Some idx =>
           push_category f idx true (glyphs layer)
             (push_category f idx false (surface layer) vars)
       end)
    layers [].

End Theme.

(* ===================================================================== *)
(** ** The generator of localised routes *)
(* ===================================================================== *)

Definition is_skippable (segment : jsstring) : bool :=
  startsWith (js "(") segment || startsWith (js "[") segment.

(** What [readdirSync(dir, { withFileTypes: true })] lists, with the
    listing of every directory below: a snapshot of the tree under [dir]. *)
#[local] Set Warnings "-register-all".
Inductive dirent : Type :=
  | Ent_file (name : jsstring)
  | Ent_dir (name : jsstring) (entries : list dirent)
  | Ent_other (name : jsstring).

(** [prefixes.add(x)] on a set kept in insertion order *)
Definition set_add (x : jsstring) (s : list jsstring) : list jsstring :=
  if existsb (jsstring_eqb x) s then s else s ++ [x].

(** [clean_parts[0]], when it is neither undefined nor empty *)
Definition first_clean (path_parts : list jsstring) : option jsstring :=
  match List.filter (fun p => negb (is_skippable p)) path_parts with
  | first :: _ => match first with [] => None | _ => Some first end
  | [] => None
  end.

(** One pass of the loop of [walk], on the entry [e] of a directory reached
    through [path_parts] *)
Fixpoint walk_entry (path_parts : list jsstring) (e : dirent)
  (prefixes : list jsstring) : list jsstring :=
  match e with
  | Ent_dir name entries =>
      (fix walk_entries (es : list dirent) (prefixes : list jsstring) :=
         match es with
         | [] => prefixes
         | e' :: es' =>
             walk_entries es' (walk_entry (path_parts ++ [name]) e' prefixes)
         end) entries prefixes
  | Ent_file name =>
      if jsstring_eqb name (js "+page.svelte") then
        match first_clean path_parts with
        | Some first => set_add first prefixes
        | None => prefixes
        end
      else prefixes
  | Ent_other _ => prefixes
  end.

(** [walk(dir, path_parts)] on the listing of [dir] *)
Definition walk (path_parts : list jsstring) (entries : list dirent)
  (prefixes : list jsstring) : list jsstring :=
  fold_left (fun prefixes e => walk_entry path_parts e prefixes) entries prefixes.

(** [get_localisable_prefixes(base_dir)], on the snapshot of [base_dir] *)
Definition get_localisable_prefixes (entries : list dirent) : list jsstring :=
  walk [] entries [].

(** The directories that hold a [+page.svelte], each as the names of the
    directories from the base down to it, in the order of the walk *)
Fixpoint page_dirs_entry (path_parts : list jsstring) (e : dirent)
  : list (list jsstring) :=
  match e with
  | Ent_dir name entries =>
      (fix page_dirs_entries (es : list dirent) :=
         match es with
         | [] => []
         | e' :: es' =>
             page_dirs_entry (path_parts ++ [name]) e' ++ page_dirs_entries es'
         end) entries
  | Ent_file name =>
      if jsstring_eqb name (js "+page.svelte") then [path_parts] else []
  | Ent_other _ => []
  end.

Definition page_dirs (path_parts : list jsstring) (entries : list dirent)
  : list (list jsstring) :=
  flat_map (page_dirs_entry path_parts) entries.

(** The end of [main]: the output directory is asserted, the text is
    computed (by [render], from the routes directory), the output file is
    created empty if it does not exist, and the text is written. *)
Definition write_localised_routes (render : World -> jsstring -> result jsstring)
  (w : World) : result World :=
  src_dir <- paths_assert w [cwd w; js "src"] ;;
  routes_dir <- paths_assert w [src_dir; js "routes"] ;;
  output_dir <- paths_assert w [src_dir; js "lib"; js "utils"; js "routes"] ;;
  let output_path := paths [output_dir; js "localised.gen.ts"] in
  output <- render w routes_dir ;;
  w1 <- (if negb (existsSync w output_path) then writeFileSync w output_path []
         else Return w) ;;
  fs_write w1 output_path output.

(** Adding the strings of [xs] to a set, one after the other *)
Definition add_all (xs prefixes : list jsstring) : list jsstring :=
  fold_left (fun prefixes x => set_add x prefixes) xs prefixes.

(** A package with [src/routes] and [src/lib/utils/routes], without the
    generated file *)
Definition tree_routes : World :=
  {| cwd := js "/w";
     files :=
       list_to_map
         [(js "/w", Dir); (js "/w/src", Dir); (js "/w/src/routes", Dir);
          (js "/w/src/lib", Dir); (js "/w/src/lib/utils", Dir);
          (js "/w/src/lib/utils/routes", Dir)] |}.

(* ===================================================================== *)
(** ** Splitting and joining *)
(* ===================================================================== *)

Lemma split_on_cons p s : exists part parts, split_on p s = part :: parts.
Proof.
  destruct s as [|c s]; simpl; [eauto|].
  destruct (p c); [eauto|]. destruct (split_on p s); eauto.
Qed.

Lemma split_on_parts p s :
  Forall (fun part => forallb (fun c => negb (p c)) part = true) (split_on p s).
Proof.
  induction s as [|c s IH]; simpl.
  - repeat constructor.
  - destruct (p c) eqn:Hc.
    + constructor; [reflexivity | exact IH].
    + destruct (split_on p s) as [|part parts].
      * constructor; [simpl; now rewrite Hc | constructor].
      * inversion IH; subst. constructor; [simpl; rewrite Hc; simpl; assumption | assumption].
Qed.

Lemma split_on_clean p s :
  forallb (fun c => negb (p c)) s = true -> split_on p s = [s].
Proof.
  induction s as [|c s IH]; simpl; [reflexivity|].
  intros H. apply andb_true_iff in H as [Hc Hs].
  apply negb_true_iff in Hc. rewrite Hc, (IH Hs). reflexivity.
Qed.

Lemma split_on_In p s part c :
  In part (split_on p s) -> In c part -> In c s.
Proof.
  revert part. induction s as [|x s IH]; simpl; intros part Hp Hc.
  - destruct Hp as [<-|[]]. destruct Hc.
  - destruct (p x).
    + destruct Hp as [<-|Hp]; [destruct Hc | right; eauto].
    + destruct (split_on p s) as [|q parts].
      * destruct Hp as [<-|[]]. destruct Hc as [->|[]]. now left.
      * destruct Hp as [<-|Hp].
        -- destruct Hc as [->|Hc]; [now left | right; apply (IH q); simpl; auto].
        -- right. apply (IH part); simpl; auto.
Qed.

Lemma join_empty parts : join [] parts = concat parts.
Proof.
  induction parts as [|p rest IH]; [reflexivity|].
  simpl. destruct rest; [now rewrite app_nil_r | now rewrite IH].
Qed.

Lemma split_on_replaceAll s :
  split_on is_sep (replaceAll c_minus c_underscore s) = split_on is_sep s.
Proof.
  induction s as [|c s IH]; [reflexivity|].
  unfold replaceAll in *. simpl. rewrite IH.
  destruct (c =? c_minus) eqn:Hc.
  - apply N.eqb_eq in Hc. subst c. reflexivity.
  - reflexivity.
Qed.

(* ===================================================================== *)
(** ** fmtu *)
(* ===================================================================== *)

Section Fmtu_facts.
Context `{RT : JsRuntime}.

Lemma fmtu_concat s :
  fmtu s = concat (List.map capitalise (split_on is_sep s)).
Proof. unfold fmtu. apply join_empty. Qed.

Lemma capitalise_nil : toUpperCase [] = [] -> capitalise [] = [].
Proof. intros H. unfold capitalise, charAt0, slice1. simpl. now rewrite H. Qed.

Lemma capitalise_cons c t : capitalise (c :: t) = toUpperCase [c] ++ t.
Proof. reflexivity. Qed.

(** What holds of every unit of the input that is not a separator, and of
    the upper-case form of each, holds of every unit of the output. *)
Lemma fmtu_Forall (Q : code_unit -> Prop) s :
  toUpperCase [] = [] ->
  (forall c, In c s -> is_sep c = false -> Q c /\ Forall Q (toUpperCase [c])) ->
  Forall Q (fmtu s).
Proof.
  intros Hnil HQ. rewrite fmtu_concat.
  assert (Hparts : Forall (fun part => Forall Q (capitalise part))
                          (split_on is_sep s)).
  { apply List.Forall_forall. intros part Hin.
    pose proof (split_on_parts is_sep s) as Hclean.
    rewrite List.Forall_forall in Hclean. specialize (Hclean part Hin).
    assert (Hsub : forall c, In c part -> Q c /\ Forall Q (toUpperCase [c])).
    { intros c Hc. apply HQ; [eapply split_on_In; eauto|].
      rewrite forallb_forall in Hclean. specialize (Hclean c Hc).
      now apply negb_true_iff in Hclean. }
    destruct part as [|c t].
    - rewrite (capitalise_nil Hnil). constructor.
    - rewrite capitalise_cons. apply List.Forall_app. split.
      + apply Hsub. now left.
      + apply List.Forall_forall. intros d Hd. apply Hsub. now right. }
  induction Hparts as [|part parts Hp _ IH]; simpl; [constructor|].
  apply List.Forall_app. now split.
Qed.

(** The first unit of the output, for an input that starts with an ASCII
    unit other than a separator. *)
Lemma fmtu_head c rest :
  upper_ascii_law -> c < 128 -> is_sep c = false ->
  exists t, fmtu (c :: rest) = ascii_upper c :: t.
Proof.
  intros [_ Hunit] Hc Hsep. rewrite fmtu_concat. simpl. rewrite Hsep.
  destruct (split_on_cons is_sep rest) as (part & parts & ->).
  simpl. rewrite capitalise_cons, (Hunit c Hc). simpl. eauto.
Qed.

Lemma named_fmtu b : named b = fmtu b.
Proof. unfold named. now rewrite !fmtu_concat, split_on_replaceAll. Qed.

(** The output has no separator left. *)
Lemma fmtu_no_sep s : upper_stable_law -> no_sep (fmtu s) = true.
Proof.
  intros [Hnil Hsep _]. unfold no_sep. apply forallb_forall.
  apply List.Forall_forall.
  apply (fmtu_Forall (fun c => negb (is_sep c) = true)); [exact Hnil|].
  intros c _ Hc. split; [now rewrite Hc|].
  apply List.Forall_forall. apply forallb_forall. now apply Hsep.
Qed.

Lemma fmtu_head_fixed s : upper_stable_law -> head_fixed (fmtu s).
Proof.
  intros [Hnil _ Hhead]. rewrite fmtu_concat.
  induction (split_on is_sep s) as [|part parts IH]; simpl; [exact I|].
  destruct part as [|c t].
  - rewrite (capitalise_nil Hnil). exact IH.
  - rewrite capitalise_cons.
    destruct (Hhead c) as (d & r & -> & Hd). simpl. exact Hd.
Qed.

End Fmtu_facts.

(* ===================================================================== *)
(** ** ASCII character classes and the reference runtime *)
(* ===================================================================== *)

Ltac char_cases :=
  unfold is_alnum, is_letter, is_digit, is_upper_letter, is_lower_letter,
         is_sep, ascii_upper, c_underscore, c_minus in *;
  repeat match goal with
         | H : _ = true |- _ => revert H
         | H : _ = false |- _ => revert H
         end;
  repeat match goal with
         | |- context [?a <=? ?b] => destruct (N.leb_spec a b)
         | |- context [?a =? ?b] => destruct (N.eqb_spec a b)
         end;
  simpl in *; intros; try reflexivity; try discriminate; try lia.

Lemma alnum_ascii c : is_alnum c = true -> c < 128.
Proof. intros H. char_cases. Qed.

Lemma alnum_not_sep c : is_alnum c = true -> is_sep c = false.
Proof. intros H. char_cases. Qed.

Lemma alnum_upper c : is_alnum c = true -> is_alnum (ascii_upper c) = true.
Proof. intros H. char_cases. Qed.

Lemma letter_upper c : is_letter c = true -> is_upper_letter (ascii_upper c) = true.
Proof. intros H. char_cases. Qed.

Lemma digit_upper c : is_digit c = true -> ascii_upper c = c.
Proof. intros H. char_cases. Qed.

Lemma ascii_upper_not_sep c : is_sep c = false -> is_sep (ascii_upper c) = false.
Proof. intros H. char_cases. Qed.

Lemma ascii_upper_idem c : ascii_upper (ascii_upper c) = ascii_upper c.
Proof. char_cases. Qed.

Lemma runtime_upper_ascii : @upper_ascii_law Ascii_runtime.runtime.
Proof. split; reflexivity. Qed.

Lemma runtime_upper_stable : @upper_stable_law Ascii_runtime.runtime.
Proof.
  split.
  - reflexivity.
  - intros c Hc. simpl. now rewrite (ascii_upper_not_sep c Hc).
  - intros c. exists (ascii_upper c), []. split; [reflexivity|].
    simpl. now rewrite ascii_upper_idem.
Qed.

(* ===================================================================== *)
(** ** The exported name of a component module *)
(* ===================================================================== *)

Section Named_facts.
Context `{RT : JsRuntime}.

Lemma plain_basename_units b c :
  plain_basename b = true -> In c b -> is_sep c = false -> is_alnum c = true.
Proof.
  destruct b as [|x rest]; [discriminate|]. simpl.
  intros H Hin Hsep. apply andb_true_iff in H as [Hx Hrest].
  destruct Hin as [->|Hin].
  - unfold is_alnum. now rewrite Hx.
  - rewrite forallb_forall in Hrest. specialize (Hrest c Hin).
    rewrite Hsep, orb_false_r in Hrest. exact Hrest.
Qed.

(** On a base name of the pattern, every unit of the name is a letter or
    a digit. *)
Lemma named_alnum b :
  upper_ascii_law -> plain_basename b = true ->
  Forall (fun c => is_alnum c = true) (named b).
Proof.
  intros Hlaw Hb. rewrite named_fmtu.
  apply fmtu_Forall; [apply Hlaw|].
  intros c Hin Hsep.
  pose proof (plain_basename_units b c Hb Hin Hsep) as Hc.
  split; [exact Hc|].
  rewrite (upper_ascii_unit Hlaw c (alnum_ascii c Hc)).
  constructor; [now apply alnum_upper | constructor].
Qed.

Lemma named_head b c rest :
  upper_ascii_law -> b = c :: rest -> is_alnum c = true ->
  exists t, named b = ascii_upper c :: t.
Proof.
  intros Hlaw -> Hc. rewrite named_fmtu.
  apply fmtu_head; [exact Hlaw | now apply alnum_ascii | now apply alnum_not_sep].
Qed.

End Named_facts.

(** C5: for every component-module base name of the pattern
    [[a-zA-Z][a-zA-Z0-9_-]*], the exported identifier, which the script
    computes as [fmtu] of the name with ['-'] replaced by ['_'] and which is
    the same as splitting on ['-'] and ['_'], upper-casing the first letter
    of each segment and concatenating, contains neither ['-'] nor ['_'] and
    begins with an upper-case letter. *)
Theorem named_plain_basename `{RT : JsRuntime} (b : jsstring) :
  upper_ascii_law ->
  plain_basename b = true ->
  named b = concat (List.map capitalise (split_on is_sep b))
  /\ no_sep (named b) = true
  /\ exists c t, named b = c :: t /\ is_upper_letter c = true.
Proof.
  intros Hlaw Hb. split; [|split].
  - rewrite named_fmtu. apply fmtu_concat.
  - unfold no_sep. apply forallb_forall. intros c Hc.
    pose proof (named_alnum b Hlaw Hb) as Hall.
    rewrite List.Forall_forall in Hall.
    now rewrite (alnum_not_sep c (Hall c Hc)).
  - destruct b as [|c rest]; [discriminate|].
    simpl in Hb. apply andb_true_iff in Hb as [Hc _].
    destruct (named_head (c :: rest) c rest Hlaw eq_refl) as [t Ht].
    { unfold is_alnum. now rewrite Hc. }
    exists (ascii_upper c), t. split; [exact Ht | now apply letter_upper].
Qed.

(** The name [user-card] of the specification becomes [UserCard]. *)
Lemma named_plain_basename_witness :
  @named Ascii_runtime.runtime (js "user-card") = js "UserCard"
  /\ no_sep (@named Ascii_runtime.runtime (js "user-card")) = true
  /\ exists c t, @named Ascii_runtime.runtime (js "user-card") = c :: t
                 /\ is_upper_letter c = true.
Proof.
  split; [reflexivity|].
  apply (@named_plain_basename Ascii_runtime.runtime (js "user-card")
           runtime_upper_ascii eq_refl).
Defined.

(** C10: [fmtu] is idempotent: its output has no separator left and its
    first character is already in upper case, so a second pass changes
    nothing. *)
Theorem fmtu_idempotent `{RT : JsRuntime} (s : jsstring) :
  upper_stable_law ->
  fmtu (fmtu s) = fmtu s.
Proof.
  intros Hlaw.
  pose proof (fmtu_no_sep s Hlaw) as Hclean.
  pose proof (fmtu_head_fixed s Hlaw) as Hhead.
  rewrite (fmtu_concat (fmtu s)).
  rewrite (split_on_clean is_sep (fmtu s) Hclean). simpl.
  rewrite app_nil_r.
  destruct (fmtu s) as [|d r].
  - apply capitalise_nil, Hlaw.
  - rewrite capitalise_cons. simpl in Hhead. now rewrite Hhead.
Qed.

Lemma fmtu_idempotent_witness :
  @fmtu Ascii_runtime.runtime (@fmtu Ascii_runtime.runtime (js "user-card_v2"))
  = @fmtu Ascii_runtime.runtime (js "user-card_v2").
Proof.
  apply (@fmtu_idempotent Ascii_runtime.runtime (js "user-card_v2")
           runtime_upper_stable).
Defined.

(* ===================================================================== *)
(** ** The file system *)
(* ===================================================================== *)

Lemma paths_assert_Return w parts p :
  paths_assert w parts = Return p <->
  p = paths parts /\ existsSync w p = true.
Proof.
  unfold paths_assert, paths.
  destruct (existsSync w (NodePath.join_paths parts)) eqn:He; simpl; split.
  - intros [= <-]. now split.
  - intros [-> _]. reflexivity.
  - discriminate.
  - intros [-> H]. congruence.
Qed.

Lemma paths_assert_Throw w parts :
  existsSync w (paths parts) = false ->
  paths_assert w parts = Throw (PathNotFound (paths parts)).
Proof. unfold paths_assert, paths. now intros ->. Qed.

Lemma lookup_path_existsSync w p n :
  lookup_path w p = Some n -> existsSync w p = true.
Proof. unfold existsSync. now intros ->. Qed.

(** Writing to a path that names a file replaces its contents. *)
Lemma fs_write_truncates w p old contents :
  lookup_path w p = Some (File old) ->
  fs_write w p contents = Return (with_file w p contents).
Proof.
  unfold fs_write, writeFileSync, lookup_path.
  destruct p as [|c p]; [discriminate|].
  destruct (files w !! NodePath.resolve (cwd w) [c :: p]) as [[|c0]|]; try discriminate.
  destruct (NodePath.endsWithSlash (c :: p)); [discriminate | reflexivity].
Qed.

(** Writing to a path that names nothing, in a directory that exists,
    creates the file. *)
Lemma fs_write_creates w p contents :
  p <> [] ->
  NodePath.endsWithSlash p = false ->
  files w !! NodePath.resolve (cwd w) [p] = None ->
  files w !! NodePath.dirname (NodePath.resolve (cwd w) [p]) = Some Dir ->
  fs_write w p contents = Return (with_file w p contents).
Proof.
  unfold fs_write, writeFileSync. intros Hp Hs Hnone Hdir.
  destruct p; [congruence|]. now rewrite Hnone, Hs, Hdir.
Qed.

(* ===================================================================== *)
(** ** The loop and the sort *)
(* ===================================================================== *)

Lemma array_sort_Permutation cmp l : Permutation l (array_sort cmp l).
Proof.
  assert (Hins : forall x m, Permutation (x :: m) (sort_insert cmp x m)).
  { intros x m. induction m as [|y m IH]; simpl; [reflexivity|].
    destruct (cmp x y <=? 0)%Z; [reflexivity|].
    rewrite perm_swap. now constructor. }
  induction l as [|x l IH]; simpl; [constructor|].
  rewrite <- Hins. now constructor.
Qed.

Lemma sort_insert_Sorted cmp x l :
  (forall a b, (cmp a b <= 0)%Z \/ (cmp b a <= 0)%Z) ->
  Sorted (fun a b => (cmp a b <= 0)%Z) l ->
  Sorted (fun a b => (cmp a b <= 0)%Z) (sort_insert cmp x l).
Proof.
  intros Htotal. induction 1 as [|y l Hs IH Hhd]; simpl.
  - repeat constructor.
  - destruct (Z.leb_spec (cmp x y) 0) as [Hle|Hgt].
    + constructor; [now constructor | now constructor].
    + constructor; [exact IH|].
      destruct l as [|z l]; simpl.
      * constructor. destruct (Htotal x y); [lia | assumption].
      * destruct (cmp x z <=? 0)%Z.
        -- constructor. destruct (Htotal x y); [lia | assumption].
        -- inversion Hhd; subst. now constructor.
Qed.

Lemma array_sort_Sorted cmp l :
  (forall a b, (cmp a b <= 0)%Z \/ (cmp b a <= 0)%Z) ->
  Sorted (fun a b => (cmp a b <= 0)%Z) (array_sort cmp l).
Proof.
  intros Htotal. induction l as [|x l IH]; simpl; [constructor|].
  now apply sort_insert_Sorted.
Qed.

Section Run_facts.
Context `{RT : JsRuntime}.
Variable fg : matcher.
Variable argv : MainArgv.

(** The loop pushes the lines of the matched files, in their order. *)
Lemma package_files_omap w base_path out_path matched :
  package_files argv w base_path out_path matched
  = omap (loop_body argv w base_path out_path) matched.
Proof.
  unfold package_files.
  set (f := fun acc rel_file =>
              match loop_body argv w base_path out_path rel_file with
              | Some line => acc ++ [line]
              | None => acc
              end).
  assert (H : forall l acc,
             fold_left f l acc = acc ++ omap (loop_body argv w base_path out_path) l).
  { induction l as [|x l IH]; intros acc; simpl; [now rewrite app_nil_r|].
    rewrite IH. unfold f.
    destruct (loop_body argv w base_path out_path x); simpl;
      [now rewrite <- app_assoc | reflexivity]. }
  apply (H matched []).
Qed.

Lemma package_files_In w base_path out_path matched line :
  In line (package_files argv w base_path out_path matched) <->
  exists rel_file, In rel_file matched
                   /\ loop_body argv w base_path out_path rel_file = Some line.
Proof.
  rewrite package_files_omap, <- list_elem_of_In, list_elem_of_omap.
  split; intros (f & Hf & Hl); exists f; split; auto;
    now apply list_elem_of_In.
Qed.

(** A run that returns went through the three assertions and wrote the
    sorted lines to the index. *)
Lemma main_Return w w' :
  main_gen_package_exports fg argv w = Return w' ->
  exists base_path out_path,
    paths_assert w [cwd w; argv_dir argv] = Return base_path
    /\ paths_assert w (cwd w :: split_on NodePath.is_slash (argv_out argv))
       = Return out_path
    /\ existsSync w (paths [out_path; js "index.ts"]) = true
    /\ fs_write w (paths [out_path; js "index.ts"])
         (artifact (run_lines fg argv w base_path out_path)) = Return w'.
Proof.
  unfold main_gen_package_exports.
  destruct (paths_assert w [cwd w; argv_dir argv]) as [e|base_path] eqn:Hb;
    [discriminate|]. simpl.
  destruct (paths_assert w (cwd w :: split_on NodePath.is_slash (argv_out argv)))
    as [e|out_path] eqn:Ho; [discriminate|]. simpl.
  destruct (paths_assert w [out_path; js "index.ts"]) as [e|export_path] eqn:He;
    [discriminate|]. simpl.
  apply paths_assert_Return in He as [-> He].
  intros Hw. exists base_path, out_path. repeat split; assumption.
Qed.

(** A run on a tree that is ready returns, with the index rewritten. *)
Lemma main_ready w base_path out_path :
  run_ready argv w base_path out_path ->
  main_gen_package_exports fg argv w
  = Return (with_file w (paths [out_path; js "index.ts"])
              (artifact (run_lines fg argv w base_path out_path))).
Proof.
  intros (Hb & Ho & old & Hidx). unfold main_gen_package_exports.
  rewrite Hb, Ho. simpl.
  assert (He : paths_assert w [out_path; js "index.ts"]
               = Return (paths [out_path; js "index.ts"])).
  { apply paths_assert_Return. split; [reflexivity|].
    eapply lookup_path_existsSync; eassumption. }
  rewrite He. simpl. eapply fs_write_truncates; eassumption.
Qed.

End Run_facts.

(* ===================================================================== *)
(** ** Selector: the pattern lists *)
(* ===================================================================== *)

Lemma push_dir_skip_glob ignore d :
  push_dir_skip ignore d = ignore ++ [skip_dir_glob d].
Proof.
  unfold push_dir_skip, skip_dir_glob, has_wildcard.
  now destruct (includes 42 d || includes 63 d || includes 91 d).
Qed.

Lemma fold_push_dir_skip ds ignore :
  fold_left push_dir_skip ds ignore = ignore ++ List.map skip_dir_glob ds.
Proof.
  revert ignore. induction ds as [|d ds IH]; intros ignore; simpl.
  - now rewrite app_nil_r.
  - now rewrite IH, push_dir_skip_glob, <- app_assoc.
Qed.

(** C8: the effective exclude-pattern list is the configured exclude
    patterns, then ['**/bin/**'] exactly when [include_bin] is false, then
    one entry per element of [skip_dirs]: the element itself if it has
    wildcard syntax, and ['**/<entry>/**'] otherwise. *)
Theorem ignore_glob_effective (argv : MainArgv) :
  ignore_glob argv = spec_exclude_patterns argv.
Proof.
  unfold ignore_glob, spec_exclude_patterns.
  destruct (argv_dir_skip argv) as [|d ds] eqn:Hds.
  - destruct (argv_include_bin argv); simpl; now rewrite ?app_nil_r.
  - rewrite fold_push_dir_skip.
    destruct (argv_include_bin argv); simpl; now rewrite <- ?app_assoc.
Qed.

(* ===================================================================== *)
(** ** Path Rewriter *)
(* ===================================================================== *)

Lemma startsWith_app p s : startsWith p (p ++ s) = true.
Proof. induction p as [|c p IH]; simpl; [reflexivity|]. now rewrite N.eqb_refl. Qed.



(* ===================================================================== *)
(** ** Export Emitter *)
(* ===================================================================== *)

(** C9: a plain module ([.ts]) yields [export * from "<specifier><suffix>"]
    where the suffix is ['.js'] exactly when [is_module] is true and empty
    otherwise; the line of a component module ([.svelte]) carries no suffix,
    whatever [is_module] is. *)
Theorem loop_body_suffix `{RT : JsRuntime} (argv : MainArgv) (w : World)
  (base_path out_path rel_file : jsstring) :
  startsWith [c_underscore] (NodePath.basename rel_file) = false ->
  let filename := NodePath.basename rel_file in
  let rel := rel_from_out w base_path out_path rel_file in
  (NodePath.extname filename = js ".ts" ->
   loop_body argv w base_path out_path rel_file
   = Some (plain_line rel (if argv_is_module argv then js ".js" else [])))
  /\ (NodePath.extname filename = js ".svelte" ->
      loop_body argv w base_path out_path rel_file
      = Some (component_line (named (slice_0_neg 7 filename)) rel)).
Proof.
  intros Hu filename rel. subst filename rel. unfold loop_body. rewrite Hu.
  split; intros ->; reflexivity.
Qed.

Lemma loop_body_suffix_witness :
  @loop_body Ascii_runtime.runtime default_argv tree_a_card
    (js "/w/src") (js "/w/src") (js "a.ts")
  = Some (plain_line (js "./a") (js ".js"))
  /\ @loop_body Ascii_runtime.runtime default_argv tree_a_card
       (js "/w/src") (js "/w/src") (js "user-card.svelte")
     = Some (component_line (js "UserCard") (js "./user-card")).
Proof.
  split.
  - exact (proj1 (@loop_body_suffix Ascii_runtime.runtime default_argv tree_a_card
                    (js "/w/src") (js "/w/src") (js "a.ts") eq_refl) eq_refl).
  - exact (proj2 (@loop_body_suffix Ascii_runtime.runtime default_argv tree_a_card
                    (js "/w/src") (js "/w/src") (js "user-card.svelte") eq_refl) eq_refl).
Defined.

Lemma segments_clean s :
  s <> [] -> forallb (fun c => negb (NodePath.is_slash c)) s = true ->
  NodePath.segments s = [s].
Proof.
  intros Hs Hclean. unfold NodePath.segments.
  rewrite (split_on_clean _ _ Hclean). simpl.
  unfold jsstring_eqb. now rewrite bool_decide_eq_false_2.
Qed.

(** The base name of a base name is itself. *)
Lemma basename_idem p : NodePath.basename (NodePath.basename p) = NodePath.basename p.
Proof.
  unfold NodePath.basename at 2 3.
  destruct (last (NodePath.segments p)) as [s|] eqn:Hlast; simpl; [|reflexivity].
  assert (Hin : In s (NodePath.segments p)).
  { apply list_elem_of_In. now apply last_Some_elem_of. }
  unfold NodePath.segments in Hin. apply List.filter_In in Hin as [Hin Hne].
  pose proof (split_on_parts NodePath.is_slash p) as Hparts.
  rewrite List.Forall_forall in Hparts. specialize (Hparts s Hin).
  unfold NodePath.basename. rewrite segments_clean; [reflexivity| |exact Hparts].
  intros ->. discriminate.
Qed.

(** A file name whose extension is [.svelte] has a non-empty stem: a name
    that is nothing but [.svelte] has no extension for [extname]. *)
Lemma svelte_stem_nonempty rel_file :
  NodePath.extname (NodePath.basename rel_file) = js ".svelte" ->
  slice_0_neg (length (NodePath.extname (NodePath.basename rel_file)))
    (NodePath.basename rel_file) <> [].
Proof.
  intros H. rewrite H. unfold NodePath.extname in H. rewrite basename_idem in H.
  set (b := NodePath.basename rel_file) in *.
  destruct (NodePath.lastIndexOf c_dot b) as [[|i]|]; try discriminate.
  destruct (jsstring_eqb b NodePath.dotdot); [discriminate|].
  apply (f_equal length) in H. rewrite length_drop in H.
  change (length (js ".svelte")) with 7%nat in *.
  unfold slice_0_neg. intros Hnil.
  apply (f_equal length) in Hnil. rewrite length_take in Hnil. simpl in Hnil. lia.
Qed.

(** What the script does with the name of a component module: it has no
    naming error.  Every component module yields the line
    [export { default as <name> } from "<specifier>"] with [<name>] the
    [fmtu] of the base name with ['-'] replaced by ['_']; the base name of a
    component module is never empty, and a leading digit stays the first
    character of the name.  The loop does not abort on a name: on a tree
    where the asserted paths exist the run returns with the index
    rewritten.  The name is a valid identifier for the base names of the
    pattern [[a-zA-Z][a-zA-Z0-9_-]*], which is as far as the safety of the
    export name goes. *)
Theorem component_name_never_rejected `{RT : JsRuntime} (fg : matcher)
  (argv : MainArgv) (w : World) (base_path out_path : jsstring) :
  upper_ascii_law ->
  run_ready argv w base_path out_path ->
  (forall filename_base rel,
     emit argv (js ".svelte") filename_base rel
     = Some (component_line (named filename_base) rel))
  /\ (forall rel_file,
        NodePath.extname (NodePath.basename rel_file) = js ".svelte" ->
        slice_0_neg (length (NodePath.extname (NodePath.basename rel_file)))
          (NodePath.basename rel_file) <> [])
  /\ (forall d rest, is_digit d = true -> exists t, named (d :: rest) = d :: t)
  /\ main_gen_package_exports fg argv w
     = Return (with_file w (paths [out_path; js "index.ts"])
                 (artifact (run_lines fg argv w base_path out_path)))
  /\ (forall b, plain_basename b = true -> valid_identifier (named b) = true).
Proof.
  intros Hlaw Hready. split; [|split; [|split; [|split]]].
  - intros filename_base rel. reflexivity.
  - exact svelte_stem_nonempty.
  - intros d rest Hd.
    destruct (named_head (d :: rest) d rest Hlaw eq_refl) as [t Ht].
    { unfold is_alnum. now rewrite Hd, orb_true_r. }
    exists t. now rewrite Ht, (digit_upper d Hd).
  - now apply main_ready.
  - intros b Hb.
    pose proof (named_alnum b Hlaw Hb) as Hall.
    destruct b as [|c rest]; [discriminate|].
    assert (Hc : is_letter c = true).
    { simpl in Hb. now apply andb_true_iff in Hb as [Hc _]. }
    destruct (named_head (c :: rest) c rest Hlaw eq_refl) as [t Hname].
    { unfold is_alnum. now rewrite Hc. }
    rewrite Hname in Hall |- *. inversion Hall as [|? ? _ Ht]; subst.
    unfold valid_identifier, is_letter. rewrite (letter_upper c Hc). simpl.
    apply forallb_forall. intros d Hd.
    rewrite List.Forall_forall in Ht. now rewrite (Ht d Hd).
Qed.

Lemma tree_digit_ready :
  run_ready default_argv tree_digit (js "/w/src") (js "/w/src").
Proof. repeat split. exists []. reflexivity. Qed.

Lemma component_name_never_rejected_witness :
  @main_gen_package_exports Ascii_runtime.runtime
    (Ascii_runtime.answering [js "1foo.svelte"]) default_argv tree_digit
  = Return (with_file tree_digit (js "/w/src/index.ts")
              (artifact [component_line (js "1foo") (js "./1foo")])).
Proof.
  exact (proj1 (proj2 (proj2 (proj2
    (@component_name_never_rejected Ascii_runtime.runtime
       (Ascii_runtime.answering [js "1foo.svelte"]) default_argv tree_digit
       (js "/w/src") (js "/w/src") runtime_upper_ascii tree_digit_ready))))).
Defined.

(** C1, where the script departs from it: the [.svelte] branch says it
    creates a safe named export, but it checks nothing.  A component module
    whose base name starts with a digit, one whose base name has a dot and
    one whose base name is a hyphen raise no error: the run writes the
    index with the export names [1foo] and [A.b], the loop gives the third
    an empty export name, and none of the three is an identifier. *)
Theorem component_name_digit_accepted :
  @main_gen_package_exports Ascii_runtime.runtime
    (Ascii_runtime.answering [js "1foo.svelte"; js "a.b.svelte"])
    default_argv tree_digit
  = Return (with_file tree_digit (js "/w/src/index.ts")
              (artifact [component_line (js "1foo") (js "./1foo");
                         component_line (js "A.b") (js "./a.b")]))
  /\ @loop_body Ascii_runtime.runtime default_argv tree_digit
       (js "/w/src") (js "/w/src") (js "-.svelte")
     = Some (component_line [] (js "./-"))
  /\ valid_identifier (js "1foo") = false
  /\ valid_identifier (js "A.b") = false
  /\ valid_identifier [] = false.
Proof. repeat split; vm_compute; reflexivity. Qed.

(* ===================================================================== *)
(** ** Aggregator Writer and whole runs *)
(* ===================================================================== *)

Lemma fs_write_Return w p contents w' :
  fs_write w p contents = Return w' -> w' = with_file w p contents.
Proof.
  unfold fs_write, writeFileSync. destruct p as [|c p]; [discriminate|].
  destruct (files w !! NodePath.resolve (cwd w) [c :: p]) as [[|old]|].
  - discriminate.
  - destruct (NodePath.endsWithSlash (c :: p)); [discriminate | congruence].
  - destruct (NodePath.endsWithSlash (c :: p)); [discriminate|].
    destruct (files w !! NodePath.dirname (NodePath.resolve (cwd w) [c :: p]))
      as [[|old]|]; [congruence | discriminate | discriminate].
Qed.

Lemma main_Return_written `{RT : JsRuntime} fg argv w w' :
  main_gen_package_exports fg argv w = Return w' ->
  exists base_path out_path,
    w' = with_file w (paths [out_path; js "index.ts"])
           (artifact (run_lines fg argv w base_path out_path)).
Proof.
  intros H. destruct (main_Return fg argv w w' H) as (b & o & _ & _ & _ & Hw).
  exists b, o. now apply fs_write_Return.
Qed.

(** C6: a matched file whose name (the last segment of its path) begins
    with an underscore is dropped by the loop whatever the patterns were, so
    every line of the artifact comes from a matched file whose name does not
    begin with an underscore. *)
Theorem underscore_files_dropped `{RT : JsRuntime} (fg : matcher)
  (argv : MainArgv) (w w' : World) :
  main_gen_package_exports fg argv w = Return w' ->
  exists base_path out_path,
    w' = with_file w (paths [out_path; js "index.ts"])
           (artifact (run_lines fg argv w base_path out_path))
    /\ (forall rel_file,
          startsWith [c_underscore] (NodePath.basename rel_file) = true ->
          loop_body argv w base_path out_path rel_file = None)
    /\ (forall line,
          In line (run_lines fg argv w base_path out_path) ->
          exists rel_file,
            In rel_file (fg (include_glob argv) base_path (ignore_glob argv) (files w))
            /\ startsWith [c_underscore] (NodePath.basename rel_file) = false
            /\ loop_body argv w base_path out_path rel_file = Some line).
Proof.
  intros H. destruct (main_Return_written fg argv w w' H) as (b & o & Hw).
  exists b, o. split; [exact Hw|]. split.
  - intros rel_file Hu. unfold loop_body. now rewrite Hu.
  - intros line Hin. unfold run_lines in Hin.
    apply (Permutation_in _ (Permutation_sym (array_sort_Permutation _ _))) in Hin.
    apply package_files_In in Hin as (rel_file & Hm & Hl).
    exists rel_file. repeat split; try assumption.
    destruct (startsWith [c_underscore] (NodePath.basename rel_file)) eqn:Hu;
      [|reflexivity].
    unfold loop_body in Hl. rewrite Hu in Hl. discriminate.
Qed.

(** Scenario A of the specification, with a matcher that lets [_b.ts]
    through. *)
Lemma underscore_files_dropped_witness :
  @main_gen_package_exports Ascii_runtime.runtime
    (Ascii_runtime.answering [js "a.ts"; js "_b.ts"; js "card.svelte"])
    default_argv tree_scenario_a
  = Return (with_file tree_scenario_a (js "/w/src/index.ts")
              (artifact [component_line (js "Card") (js "./card");
                         plain_line (js "./a") (js ".js")]))
  /\ exists base_path out_path,
       with_file tree_scenario_a (js "/w/src/index.ts")
         (artifact [component_line (js "Card") (js "./card");
                    plain_line (js "./a") (js ".js")])
       = with_file tree_scenario_a (paths [out_path; js "index.ts"])
           (artifact (@run_lines Ascii_runtime.runtime
                        (Ascii_runtime.answering [js "a.ts"; js "_b.ts"; js "card.svelte"])
                        default_argv tree_scenario_a base_path out_path)).
Proof.
  assert (Hrun : @main_gen_package_exports Ascii_runtime.runtime
            (Ascii_runtime.answering [js "a.ts"; js "_b.ts"; js "card.svelte"])
            default_argv tree_scenario_a
          = Return (with_file tree_scenario_a (js "/w/src/index.ts")
              (artifact [component_line (js "Card") (js "./card");
                         plain_line (js "./a") (js ".js")])))
    by (vm_compute; reflexivity).
  split; [exact Hrun|].
  destruct (@underscore_files_dropped Ascii_runtime.runtime _ _ _ _ Hrun)
    as (b & o & Hw & _). exists b, o. exact Hw.
Defined.

Lemma lex_compare_antisym a b : lex_compare b a = CompOpp (lex_compare a b).
Proof.
  revert b. induction a as [|x a IH]; intros [|y b]; simpl; try reflexivity.
  rewrite (N.compare_antisym x y). destruct (x ?= y); simpl; auto.
Qed.

Lemma collate_total a b :
  (Ascii_runtime.collate a b <= 0)%Z \/ (Ascii_runtime.collate b a <= 0)%Z.
Proof.
  unfold Ascii_runtime.collate.
  rewrite (lex_compare_antisym (List.map Ascii_runtime.primary a)).
  rewrite (lex_compare_antisym (List.map Ascii_runtime.tertiary a)).
  destruct (lex_compare (List.map Ascii_runtime.primary a)
                        (List.map Ascii_runtime.primary b)); simpl; try lia.
  destruct (lex_compare (List.map Ascii_runtime.tertiary a)
                        (List.map Ascii_runtime.tertiary b)); simpl; lia.
Qed.

(** C3, as the script has it: the lines of the artifact are the emitted
    lines, rearranged so that each line compares less than or equal to the
    next under [localeCompare], the collation of the runtime, which is not
    the order of the code points. *)
Theorem artifact_lines_collated `{RT : JsRuntime} (fg : matcher)
  (argv : MainArgv) (w w' : World) :
  (forall a b, (localeCompare a b <= 0)%Z \/ (localeCompare b a <= 0)%Z) ->
  main_gen_package_exports fg argv w = Return w' ->
  exists base_path out_path lines,
    w' = with_file w (paths [out_path; js "index.ts"]) (artifact lines)
    /\ lines = run_lines fg argv w base_path out_path
    /\ Permutation
         (package_files argv w base_path out_path
            (fg (include_glob argv) base_path (ignore_glob argv) (files w)))
         lines
    /\ Sorted (fun a b => (localeCompare a b <= 0)%Z) lines.
Proof.
  intros Htotal H. destruct (main_Return_written fg argv w w' H) as (b & o & Hw).
  exists b, o, (run_lines fg argv w b o). split; [exact Hw|]. split; [reflexivity|].
  split; [apply array_sort_Permutation | now apply array_sort_Sorted].
Qed.

Lemma tree_mixed_case_run :
  @main_gen_package_exports Ascii_runtime.runtime
    (Ascii_runtime.answering [js "B.ts"; js "a.ts"]) default_argv tree_mixed_case
  = Return (with_file tree_mixed_case (js "/w/src/index.ts")
              (artifact [plain_line (js "./a") (js ".js");
                         plain_line (js "./B") (js ".js")])).
Proof. vm_compute. reflexivity. Qed.

Lemma artifact_lines_collated_witness :
  exists base_path out_path lines,
    with_file tree_mixed_case (js "/w/src/index.ts")
      (artifact [plain_line (js "./a") (js ".js"); plain_line (js "./B") (js ".js")])
    = with_file tree_mixed_case (paths [out_path; js "index.ts"]) (artifact lines)
    /\ lines = @run_lines Ascii_runtime.runtime
                 (Ascii_runtime.answering [js "B.ts"; js "a.ts"])
                 default_argv tree_mixed_case base_path out_path
    /\ Permutation
         (@package_files Ascii_runtime.runtime default_argv tree_mixed_case
            base_path out_path
            (Ascii_runtime.answering [js "B.ts"; js "a.ts"]
               (include_glob default_argv) base_path (ignore_glob default_argv)
               (files tree_mixed_case)))
         lines
    /\ Sorted (fun a b => (Ascii_runtime.collate a b <= 0)%Z) lines.
Proof.
  exact (@artifact_lines_collated Ascii_runtime.runtime _ _ _ _
           collate_total tree_mixed_case_run).
Defined.

(** Two plain modules, [B.ts] and [a.ts]: the collation puts the line of
    [a] first, the code points would put the line of [B] first. *)
Lemma artifact_lines_not_codepoint_sorted :
  @main_gen_package_exports Ascii_runtime.runtime
    (Ascii_runtime.answering [js "B.ts"; js "a.ts"]) default_argv tree_mixed_case
  = Return (with_file tree_mixed_case (js "/w/src/index.ts")
              (artifact [plain_line (js "./a") (js ".js");
                         plain_line (js "./B") (js ".js")]))
  /\ sortedb codepoint_leb
       [plain_line (js "./a") (js ".js"); plain_line (js "./B") (js ".js")] = false.
Proof. split; vm_compute; reflexivity. Qed.



(* ===================================================================== *)
(** ** The output path *)
(* ===================================================================== *)

Lemma with_file_twice w p old contents :
  with_file (with_file w p old) p contents = with_file w p contents.
Proof. unfold with_file. simpl. f_equal. apply insert_insert_eq. Qed.

(** Whatever the files matched, a run whose output directory has no
    [index.ts] stops at the assertion on the export path. *)
Lemma main_missing_index `{RT : JsRuntime} fg argv w base_path out_path :
  paths_assert w [cwd w; argv_dir argv] = Return base_path ->
  paths_assert w (cwd w :: split_on NodePath.is_slash (argv_out argv))
  = Return out_path ->
  existsSync w (paths [out_path; js "index.ts"]) = false ->
  main_gen_package_exports fg argv w
  = Throw (PathNotFound (paths [out_path; js "index.ts"])).
Proof.
  intros Hb Ho He. unfold main_gen_package_exports. rewrite Hb, Ho. simpl.
  now rewrite (paths_assert_Throw _ _ He).
Qed.

(** C2, where the script departs from it: in a package whose [src] has no
    [index.ts] yet, the write on its own would create the file, but the run
    throws [Path not found] before it gets there and leaves the tree as it
    was. *)
Theorem missing_index_aborts `{RT : JsRuntime} (fg : matcher) :
  main_gen_package_exports fg default_argv tree_no_index
  = Throw (PathNotFound (js "/w/src/index.ts"))
  /\ (forall contents,
        fs_write tree_no_index (js "/w/src/index.ts") contents
        = Return (with_file tree_no_index (js "/w/src/index.ts") contents))
  /\ (forall old contents,
        fs_write (with_file tree_no_index (js "/w/src/index.ts") old)
          (js "/w/src/index.ts") contents
        = Return (with_file tree_no_index (js "/w/src/index.ts") contents)).
Proof.
  split; [|split].
  - now apply (main_missing_index fg default_argv tree_no_index
                 (js "/w/src") (js "/w/src")).
  - intros contents. now apply fs_write_creates.
  - intros old contents.
    rewrite (fs_write_truncates _ _ old contents).
    + now rewrite with_file_twice.
    + unfold lookup_path, with_file. cbn [cwd files tree_no_index package_tree].
      change (NodePath.resolve (js "/w") [js "/w/src/index.ts"])
        with (js "/w/src/index.ts").
      now rewrite lookup_insert_eq.
Qed.

(* ===================================================================== *)
(** ** More on fmtu *)
(* ===================================================================== *)

Lemma split_on_app_sep p a c b :
  p c = true -> split_on p (a ++ c :: b) = split_on p a ++ split_on p b.
Proof.
  intros Hc. induction a as [|x a IH]; simpl.
  - now rewrite Hc.
  - rewrite IH. destruct (p x); [reflexivity|].
    destruct (split_on_cons p a) as (part & parts & ->). reflexivity.
Qed.

Lemma concat_split_on p s :
  concat (split_on p s) = List.filter (fun c => negb (p c)) s.
Proof.
  induction s as [|c s IH]; simpl; [reflexivity|].
  destruct (p c); simpl; [exact IH|].
  destruct (split_on_cons p s) as (part & parts & Hs).
  rewrite Hs in IH |- *. simpl in *. now rewrite IH.
Qed.

(** X1: [fmtu] works segment by segment: on two strings joined by a
    separator (['-'] or ['_']) it is the concatenation of the results on
    each, so the separator leaves no trace. *)
Theorem fmtu_sep_app `{RT : JsRuntime} (a b : jsstring) (c : code_unit) :
  is_sep c = true ->
  fmtu (a ++ c :: b) = fmtu a ++ fmtu b.
Proof.
  intros Hc. rewrite !fmtu_concat, (split_on_app_sep is_sep a c b Hc).
  now rewrite List.map_app, List.concat_app.
Qed.

Lemma fmtu_sep_app_witness :
  @fmtu Ascii_runtime.runtime (js "user-card")
  = @fmtu Ascii_runtime.runtime (js "user") ++ @fmtu Ascii_runtime.runtime (js "card").
Proof.
  exact (@fmtu_sep_app Ascii_runtime.runtime (js "user") (js "card") c_minus eq_refl).
Defined.

Lemma ascii_upper_capitalise `{RT : JsRuntime} part :
  upper_ascii_law -> Forall (fun c => c < 128) part ->
  List.map ascii_upper (capitalise part) = List.map ascii_upper part.
Proof.
  intros Hlaw Hpart. destruct part as [|c t].
  - now rewrite (capitalise_nil (upper_ascii_nil Hlaw)).
  - inversion Hpart; subst.
    rewrite capitalise_cons, (upper_ascii_unit Hlaw c) by assumption.
    simpl. now rewrite ascii_upper_idem.
Qed.

(** X2: on ASCII input [fmtu] only removes the separators and changes the
    case of letters: up to case, the output is the input without its ['-']
    and ['_'], in the same order; so its length is the number of the other
    characters. *)
Theorem fmtu_ascii_content `{RT : JsRuntime} (s : jsstring) :
  upper_ascii_law ->
  Forall (fun c => c < 128) s ->
  List.map ascii_upper (fmtu s)
  = List.map ascii_upper (List.filter (fun c => negb (is_sep c)) s)
  /\ length (fmtu s) = length (List.filter (fun c => negb (is_sep c)) s).
Proof.
  intros Hlaw Hs.
  assert (Hmap : List.map ascii_upper (fmtu s)
                 = List.map ascii_upper (List.filter (fun c => negb (is_sep c)) s)).
  { rewrite fmtu_concat, <- concat_split_on.
    assert (Hparts : Forall (Forall (fun c => c < 128)) (split_on is_sep s)).
    { apply List.Forall_forall. intros part Hin.
      apply List.Forall_forall. intros c Hc.
      rewrite List.Forall_forall in Hs. apply Hs.
      eapply split_on_In; eassumption. }
    induction Hparts as [|part parts Hp _ IH]; [reflexivity|].
    simpl. rewrite !List.map_app, IH. f_equal.
    now apply ascii_upper_capitalise. }
  split; [exact Hmap|].
  apply (f_equal (@length N)) in Hmap. now rewrite !List.length_map in Hmap.
Qed.

Lemma fmtu_ascii_content_witness :
  List.map ascii_upper (@fmtu Ascii_runtime.runtime (js "my_user-card"))
  = js "MYUSERCARD"
  /\ length (@fmtu Ascii_runtime.runtime (js "my_user-card")) = 10%nat.
Proof.
  apply (@fmtu_ascii_content Ascii_runtime.runtime (js "my_user-card")
           runtime_upper_ascii).
  repeat constructor.
Defined.

(* ===================================================================== *)
(** ** More on the rewriting of paths *)
(* ===================================================================== *)

Lemma drop_app_length_plus {A} (s e : list A) k :
  drop (length s + k) (s ++ e) = drop k e.
Proof. induction s as [|x s IH]; simpl; [reflexivity | exact IH]. Qed.

Lemma endsWith_ci_app word s e :
  (length word <= length e)%nat ->
  endsWith_ci word (s ++ e) = endsWith_ci word e.
Proof.
  intros Hlen. unfold endsWith_ci. rewrite List.length_app.
  replace (length s + length e - length word)%nat
    with (length s + (length e - length word))%nat by lia.
  rewrite drop_app_length_plus. f_equal.
  apply Nat.leb_le in Hlen as Hle. rewrite Hle.
  apply Nat.leb_le. lia.
Qed.

Lemma take_app_length_exact {A} (s e : list A) n :
  n = length e -> take (length (s ++ e) - n) (s ++ e) = s.
Proof.
  intros ->. rewrite List.length_app.
  replace (length s + length e - length e)%nat with (length s) by lia.
  now rewrite take_app_length.
Qed.

Lemma strip_module_ext_suffix (s e : jsstring) :
  same_word_ci (js ".ts") e || same_word_ci (js ".svelte") e = true ->
  strip_module_ext (s ++ e) = s.
Proof.
  intros He. unfold strip_module_ext.
  apply orb_true_iff in He as [He|He];
    unfold same_word_ci in He; apply andb_true_iff in He as [Hlen Hci];
    apply Nat.eqb_eq in Hlen.
  - rewrite endsWith_ci_app by (rewrite Hlen; reflexivity).
    rewrite Hci. now apply take_app_length_exact.
  - assert (Hts : endsWith_ci (js ".ts") e = false).
    { do 8 (destruct e as [|? e]; try discriminate Hlen).
      unfold endsWith_ci in Hci |- *. cbn in Hci |- *.
      repeat (apply andb_true_iff in Hci as [? Hci]).
      repeat match goal with
             | H : (_ || _) = true |- _ => apply orb_true_iff in H as [H|H]
             | H : (_ =? _) = true |- _ => apply N.eqb_eq in H; subst
             end; reflexivity. }
    rewrite !endsWith_ci_app by (rewrite Hlen; cbn; lia).
    rewrite Hts, Hci. now apply take_app_length_exact.
Qed.

(** X3: stripping the module extension undoes appending one: for [e] one
    of [.ts] and [.svelte], in any letter case, [(s + e).replace(...)] is
    [s], whatever [s] is; a string that ends in neither is left alone.  One
    call removes one extension only: a name that carries two needs two
    calls. *)
Theorem strip_module_ext_app (s e : jsstring) :
  (same_word_ci (js ".ts") e || same_word_ci (js ".svelte") e = true ->
   strip_module_ext (s ++ e) = s)
  /\ (endsWith_ci (js ".ts") s = false -> endsWith_ci (js ".svelte") s = false ->
      strip_module_ext s = s)
  /\ (same_word_ci (js ".ts") e || same_word_ci (js ".svelte") e = true ->
      strip_module_ext (strip_module_ext ((s ++ e) ++ e)) = s).
Proof.
  split; [|split].
  - apply strip_module_ext_suffix.
  - intros Hts Hsv. unfold strip_module_ext. now rewrite Hts, Hsv.
  - intros He. now rewrite !strip_module_ext_suffix.
Qed.

Lemma strip_module_ext_app_witness :
  strip_module_ext (js "/w/src/card" ++ js ".Svelte") = js "/w/src/card"
  /\ strip_module_ext (js "a.ts" ++ js ".ts") = js "a.ts".
Proof.
  split.
  - exact (proj1 (strip_module_ext_app (js "/w/src/card") (js ".Svelte")) eq_refl).
  - exact (proj1 (strip_module_ext_app (js "a.ts") (js ".ts")) eq_refl).
Defined.

(** X4: [to_posix] leaves no backslash, keeps the length, changes nothing
    in a string without backslash, and applying it twice is the same as
    applying it once. *)
Theorem to_posix_normal (p : jsstring) :
  includes c_backslash (to_posix p) = false
  /\ length (to_posix p) = length p
  /\ to_posix (to_posix p) = to_posix p
  /\ (includes c_backslash p = false -> to_posix p = p).
Proof.
  unfold to_posix, replaceAll, includes.
  induction p as [|c p (IH1 & IH2 & IH3 & IH4)]; [now repeat split|].
  cbn [List.map existsb length].
  destruct (N.eqb_spec c c_backslash) as [->|Hc].
  - repeat split.
    + exact IH1.
    + now rewrite IH2.
    + cbn. now rewrite IH3.
    + cbn. discriminate.
  - assert (Hc' : (c_backslash =? c) = false) by (apply N.eqb_neq; congruence).
    assert (Hc'' : (c =? c_backslash) = false) by now apply N.eqb_neq.
    repeat split.
    + now rewrite Hc'.
    + now rewrite IH2.
    + cbn [List.map]. now rewrite Hc'', IH3.
    + rewrite Hc'. cbn. intros H. now rewrite IH4.
Qed.

(* ===================================================================== *)
(** ** More on the loop *)
(* ===================================================================== *)

(** X5: the loop pushes a line for a matched file exactly when the name of
    the file does not begin with an underscore and its extension is
    literally [.ts] or [.svelte]; any other extension, [.TS] and [.tsx]
    included, is passed over without an error. *)
Theorem loop_body_recognised `{RT : JsRuntime} (argv : MainArgv) (w : World)
  (base_path out_path rel_file : jsstring) :
  is_Some (loop_body argv w base_path out_path rel_file)
  <-> startsWith [c_underscore] (NodePath.basename rel_file) = false
      /\ (NodePath.extname (NodePath.basename rel_file) = js ".ts"
          \/ NodePath.extname (NodePath.basename rel_file) = js ".svelte").
Proof.
  unfold loop_body, emit, jsstring_eqb.
  destruct (startsWith [c_underscore] (NodePath.basename rel_file)).
  - split; [intros [x Hx]; discriminate | intros [H _]; discriminate].
  - repeat case_bool_decide; split; eauto.
    + intros [x Hx]. discriminate.
    + intros [_ [H'|H']]; congruence.
Qed.

(* ===================================================================== *)
(** ** More on the file system and on whole runs *)
(* ===================================================================== *)

Lemma toWellFormed_id s :
  forallb (fun c => negb (is_surrogate c)) s = true -> toWellFormed s = s.
Proof.
  induction s as [|c s IH]; [reflexivity|].
  intros H. cbn [forallb] in H. apply andb_true_iff in H as [Hc Hs].
  apply negb_true_iff in Hc. specialize (IH Hs).
  cbn [toWellFormed]. destruct s as [|d s].
  - now rewrite Hc.
  - unfold is_surrogate in Hc. apply orb_false_iff in Hc as [Hh Hl].
    rewrite Hh. cbn [andb]. unfold is_surrogate. rewrite Hh, Hl. cbn [orb].
    now rewrite IH.
Qed.

Lemma fs_read_written w w' path contents :
  fs_write w path contents = Return w' ->
  fs_read w' path = Return (toWellFormed contents).
Proof.
  intros Hw. pose proof (fs_write_Return _ _ _ _ Hw) as ->.
  unfold fs_write, writeFileSync in Hw. unfold fs_read, readFileSync, with_file.
  destruct path as [|c p]; [discriminate|]. cbn [cwd files].
  rewrite lookup_insert_eq.
  destruct (NodePath.endsWithSlash (c :: p)); [|reflexivity].
  destruct (files w !! NodePath.resolve (cwd w) [c :: p]) as [[|old]|];
    discriminate.
Qed.

(** X6: what [fs_write] wrote, [fs_read] reads back: the string itself when
    it has no surrogate, and in general the string with every unpaired
    surrogate replaced by U+FFFD. *)
Theorem fs_read_fs_write (w w' : World) (path contents : jsstring) :
  fs_write w path contents = Return w' ->
  fs_read w' path = Return (toWellFormed contents)
  /\ (forallb (fun c => negb (is_surrogate c)) contents = true ->
      fs_read w' path = Return contents).
Proof.
  intros Hw. pose proof (fs_read_written _ _ _ _ Hw) as Hread.
  split; [exact Hread|].
  intros Hwf. now rewrite Hread, toWellFormed_id.
Qed.

Lemma fs_read_fs_write_witness :
  fs_read (with_file tree_no_index (js "/w/src/index.ts") (js "export {}"))
    (js "/w/src/index.ts")
  = Return (js "export {}").
Proof.
  refine (proj2 (fs_read_fs_write tree_no_index _ (js "/w/src/index.ts")
                   (js "export {}") _) eq_refl).
  now apply fs_write_creates.
Defined.

Lemma existsSync_lookup_path w p :
  existsSync w p = negb (bool_decide (lookup_path w p = None)).
Proof. unfold existsSync. destruct (lookup_path w p); reflexivity. Qed.

Lemma fs_write_directory w p contents :
  lookup_path w p = Some Dir ->
  fs_write w p contents = Throw (SystemError EISDIR p).
Proof.
  unfold fs_write, writeFileSync, lookup_path.
  destruct p as [|c p]; [discriminate|].
  destruct (files w !! NodePath.resolve (cwd w) [c :: p]) as [[|old]|];
    try discriminate; [reflexivity|].
  destruct (NodePath.endsWithSlash (c :: p)); discriminate.
Qed.

Lemma main_cases `{RT : JsRuntime} (fg : matcher) (argv : MainArgv) (w : World) :
  let base_path := paths [cwd w; argv_dir argv] in
  let out_path := paths (cwd w :: split_on NodePath.is_slash (argv_out argv)) in
  let export_path := paths [out_path; js "index.ts"] in
  main_gen_package_exports fg argv w
  = if negb (existsSync w base_path) then Throw (PathNotFound base_path)
    else if negb (existsSync w out_path) then Throw (PathNotFound out_path)
    else match lookup_path w export_path with
         | None => Throw (PathNotFound export_path)
         | Some Dir => Throw (SystemError EISDIR export_path)
         | Some (File _) =>
             Return (with_file w export_path
                       (artifact (run_lines fg argv w base_path out_path)))
         end.
Proof.
  intros base_path out_path export_path.
  unfold main_gen_package_exports, paths_assert.
  fold (paths [cwd w; argv_dir argv]). fold base_path.
  destruct (existsSync w base_path); [|reflexivity]. cbn [negb bind].
  fold (paths (cwd w :: split_on NodePath.is_slash (argv_out argv))). fold out_path.
  destruct (existsSync w out_path); [|reflexivity]. cbn [negb bind].
  fold (paths [out_path; js "index.ts"]). fold export_path.
  unfold existsSync.
  destruct (lookup_path w export_path) as [[|old]|] eqn:Hl; cbn [negb bind].
  - now apply fs_write_directory.
  - eapply fs_write_truncates; eassumption.
  - reflexivity.
Qed.

(** X7: the existence checks of a run, which come before the matcher is
    called and hold whatever the matcher does.  A missing base directory
    throws [Path not found] for it; with the base directory there, a missing
    output directory throws it for the output directory; with both there, a
    missing index throws it for the index.  A run does not return when the
    index is a directory, and a run that returns found the base directory,
    the output directory and the index as a file.  (An exception of the
    matcher call itself is outside [matcher] and not described here.) *)
Theorem main_outcomes `{RT : JsRuntime} (fg : matcher) (argv : MainArgv) (w : World) :
  let base_path := paths [cwd w; argv_dir argv] in
  let out_path := paths (cwd w :: split_on NodePath.is_slash (argv_out argv)) in
  let export_path := paths [out_path; js "index.ts"] in
  (existsSync w base_path = false ->
   main_gen_package_exports fg argv w = Throw (PathNotFound base_path))
  /\ (existsSync w base_path = true -> existsSync w out_path = false ->
      main_gen_package_exports fg argv w = Throw (PathNotFound out_path))
  /\ (existsSync w base_path = true -> existsSync w out_path = true ->
      lookup_path w export_path = None ->
      main_gen_package_exports fg argv w = Throw (PathNotFound export_path))
  /\ (lookup_path w export_path = Some Dir ->
      forall w', main_gen_package_exports fg argv w <> Return w')
  /\ (forall w',
        main_gen_package_exports fg argv w = Return w' ->
        existsSync w base_path = true /\ existsSync w out_path = true
        /\ exists old, lookup_path w export_path = Some (File old)).
Proof.
  intros base_path out_path export_path.
  pose proof (main_cases fg argv w) as Hc. cbv zeta in Hc.
  fold base_path out_path export_path in Hc.
  rewrite Hc. repeat split.
  - intros ->. reflexivity.
  - intros -> ->. reflexivity.
  - intros -> -> ->. reflexivity.
  - intros -> w'.
    destruct (existsSync w base_path); cbn [negb]; [|discriminate].
    destruct (existsSync w out_path); cbn [negb]; discriminate.
  - destruct (existsSync w base_path); [reflexivity | discriminate].
  - destruct (existsSync w base_path); cbn [negb] in *; [|discriminate].
    destruct (existsSync w out_path); [reflexivity | discriminate].
  - destruct (existsSync w base_path); cbn [negb] in *; [|discriminate].
    destruct (existsSync w out_path); cbn [negb] in *; [|discriminate].
    destruct (lookup_path w export_path) as [[|old]|]; try discriminate.
    now exists old.
Qed.

(** X8: a run that returns has changed one thing: the index holds the
    artifact (and reads back as such); the working directory and every
    other entry of the file system are as before. *)
Theorem main_frame `{RT : JsRuntime} (fg : matcher) (argv : MainArgv) (w w' : World) :
  main_gen_package_exports fg argv w = Return w' ->
  exists base_path out_path contents,
    contents = artifact (run_lines fg argv w base_path out_path)
    /\ cwd w' = cwd w
    /\ lookup_path w' (paths [out_path; js "index.ts"]) = Some (File contents)
    /\ fs_read w' (paths [out_path; js "index.ts"]) = Return (toWellFormed contents)
    /\ (forall key,
          key <> NodePath.resolve (cwd w) [paths [out_path; js "index.ts"]] ->
          files w' !! key = files w !! key).
Proof.
  intros H. destruct (main_Return fg argv w w' H) as (b & o & _ & _ & He & Hw).
  exists b, o, (artifact (run_lines fg argv w b o)).
  pose proof (fs_write_Return _ _ _ _ Hw) as Hw'.
  split; [reflexivity|]. split; [now rewrite Hw'|]. split; [|split].
  - rewrite Hw'. unfold existsSync in He. unfold lookup_path, with_file in *.
    destruct (paths [o; js "index.ts"]) as [|c p]; [discriminate|].
    cbn [cwd files]. rewrite lookup_insert_eq.
    destruct (NodePath.endsWithSlash (c :: p)); [|reflexivity].
    unfold fs_write, writeFileSync in Hw.
    destruct (files w !! NodePath.resolve (cwd w) [c :: p]) as [[|old]|];
      discriminate.
  - exact (fs_read_written w w' _ _ Hw).
  - intros key Hkey. rewrite Hw'. unfold with_file. cbn [files].
    now rewrite lookup_insert_ne.
Qed.

Lemma main_frame_witness :
  exists base_path out_path contents,
    contents = artifact (@run_lines Ascii_runtime.runtime
                           (Ascii_runtime.answering [js "B.ts"; js "a.ts"])
                           default_argv tree_mixed_case base_path out_path)
    /\ cwd (with_file tree_mixed_case (js "/w/src/index.ts")
              (artifact [plain_line (js "./a") (js ".js");
                         plain_line (js "./B") (js ".js")]))
       = cwd tree_mixed_case
    /\ lookup_path
         (with_file tree_mixed_case (js "/w/src/index.ts")
            (artifact [plain_line (js "./a") (js ".js");
                       plain_line (js "./B") (js ".js")]))
         (paths [out_path; js "index.ts"]) = Some (File contents)
    /\ fs_read
         (with_file tree_mixed_case (js "/w/src/index.ts")
            (artifact [plain_line (js "./a") (js ".js");
                       plain_line (js "./B") (js ".js")]))
         (paths [out_path; js "index.ts"]) = Return (toWellFormed contents)
    /\ (forall key,
          key <> NodePath.resolve (cwd tree_mixed_case)
                   [paths [out_path; js "index.ts"]] ->
          files (with_file tree_mixed_case (js "/w/src/index.ts")
                   (artifact [plain_line (js "./a") (js ".js");
                              plain_line (js "./B") (js ".js")])) !! key
          = files tree_mixed_case !! key).
Proof.
  exact (@main_frame Ascii_runtime.runtime _ _ _ _ tree_mixed_case_run).
Defined.

Lemma omap_all_None {A B} (f : A -> option B) l :
  (forall x, In x l -> f x = None) -> omap f l = [].
Proof.
  induction l as [|x l IH]; intros H; [reflexivity|].
  cbn [omap list_omap]. rewrite (H x) by now left.
  apply IH. intros y Hy. apply H. now right.
Qed.

(** X9: when the matcher selects nothing, or nothing but files that the
    loop passes over, the run still succeeds and the artifact is the header
    followed by an empty line. *)
Theorem main_nothing_selected `{RT : JsRuntime} (fg : matcher) (argv : MainArgv)
  (w : World) (base_path out_path : jsstring) :
  run_ready argv w base_path out_path ->
  (forall rel_file,
     In rel_file (fg (include_glob argv) base_path (ignore_glob argv) (files w)) ->
     loop_body argv w base_path out_path rel_file = None) ->
  main_gen_package_exports fg argv w
  = Return (with_file w (paths [out_path; js "index.ts"]) (header ++ [c_newline])).
Proof.
  intros Hready Hnone. rewrite (main_ready fg argv _ _ _ Hready).
  unfold run_lines. rewrite package_files_omap, (omap_all_None _ _ Hnone).
  reflexivity.
Qed.

Lemma main_nothing_selected_witness :
  @main_gen_package_exports Ascii_runtime.runtime
    (Ascii_runtime.answering [js "_b.ts"; js "notes.txt"]) default_argv tree_digit
  = Return (with_file tree_digit (js "/w/src/index.ts") (header ++ [c_newline])).
Proof.
  apply (@main_nothing_selected Ascii_runtime.runtime
           (Ascii_runtime.answering [js "_b.ts"; js "notes.txt"]) default_argv
           tree_digit (js "/w/src") (js "/w/src") tree_digit_ready).
  intros rel_file [<-|[<-|[]]]; reflexivity.
Defined.

Lemma existsSync_with_file w e old contents p :
  lookup_path w e = Some (File old) ->
  lookup_path (with_file w e contents) p
  = match lookup_path w p with
    | Some (File c) =>
        if bool_decide (NodePath.resolve (cwd w) [p] = NodePath.resolve (cwd w) [e])
        then Some (File contents) else Some (File c)
    | o => o
    end.
Proof.
  intros He. unfold lookup_path, with_file in *. cbn [cwd files].
  destruct p as [|c p]; [reflexivity|].
  destruct e as [|c' e]; [discriminate|].
  case_bool_decide as Hk.
  - rewrite Hk, lookup_insert_eq.
    destruct (files w !! NodePath.resolve (cwd w) [c' :: e]) as [[|c0]|];
      try discriminate.
    destruct (NodePath.endsWithSlash (c :: p)); reflexivity.
  - rewrite lookup_insert_ne by congruence.
    destruct (files w !! NodePath.resolve (cwd w) [c :: p]) as [[|c0]|];
      try reflexivity.
    destruct (NodePath.endsWithSlash (c :: p)); reflexivity.
Qed.

(** X10: running the script again changes nothing: after a run that
    returned, a second run on the tree it left, with the matcher selecting
    the same files, returns the same tree. *)
Theorem main_twice `{RT : JsRuntime} (fg : matcher) (argv : MainArgv) (w w' : World) :
  main_gen_package_exports fg argv w = Return w' ->
  fg (include_glob argv) (paths [cwd w; argv_dir argv]) (ignore_glob argv) (files w')
  = fg (include_glob argv) (paths [cwd w; argv_dir argv]) (ignore_glob argv) (files w) ->
  main_gen_package_exports fg argv w' = Return w'.
Proof.
  intros H Hfg. rewrite main_cases in H.
  set (b := paths [cwd w; argv_dir argv]) in *.
  set (o := paths (cwd w :: split_on NodePath.is_slash (argv_out argv))) in *.
  set (e := paths [o; js "index.ts"]) in *.
  destruct (existsSync w b) eqn:Hb; [|discriminate]. cbn [negb] in H.
  destruct (existsSync w o) eqn:Ho; [|discriminate]. cbn [negb] in H.
  destruct (lookup_path w e) as [[|old]|] eqn:He; try discriminate.
  injection H as <-.
  set (c := artifact (run_lines fg argv w b o)) in *.
  rewrite main_cases.
  change (cwd (with_file w e c)) with (cwd w). fold b o e.
  assert (Hex : forall p, existsSync (with_file w e c) p = existsSync w p).
  { intros p. unfold existsSync. rewrite (existsSync_with_file w e old c p He).
    destruct (lookup_path w p) as [[|c0]|]; try reflexivity.
    now case_bool_decide. }
  rewrite !Hex, Hb, Ho. cbn [negb].
  rewrite (existsSync_with_file w e old c e He), He.
  rewrite bool_decide_eq_true_2 by reflexivity.
  assert (Hl : run_lines fg argv (with_file w e c) b o = run_lines fg argv w b o).
  { unfold run_lines. rewrite Hfg. reflexivity. }
  rewrite Hl. fold c. now rewrite with_file_twice.
Qed.

Lemma main_twice_witness :
  @main_gen_package_exports Ascii_runtime.runtime
    (Ascii_runtime.answering [js "B.ts"; js "a.ts"]) default_argv
    (with_file tree_mixed_case (js "/w/src/index.ts")
       (artifact [plain_line (js "./a") (js ".js"); plain_line (js "./B") (js ".js")]))
  = Return (with_file tree_mixed_case (js "/w/src/index.ts")
              (artifact [plain_line (js "./a") (js ".js");
                         plain_line (js "./B") (js ".js")])).
Proof.
  exact (@main_twice Ascii_runtime.runtime _ _ _ _ tree_mixed_case_run eq_refl).
Defined.

(* ===================================================================== *)
(** ** The order of the matched files does not matter *)
(* ===================================================================== *)

Lemma StronglySorted_Permutation_eq (R : jsstring -> jsstring -> Prop) l1 :
  forall l2,
    (forall a b, In a l1 -> In b l1 -> R a b -> R b a -> a = b) ->
    StronglySorted R l1 -> StronglySorted R l2 -> Permutation l1 l2 -> l1 = l2.
Proof.
  induction l1 as [|x t IH]; intros l2 Hanti S1 S2 Hp.
  - apply Permutation_nil in Hp. now subst.
  - destruct l2 as [|y t2]; [now apply Permutation_sym, Permutation_nil in Hp|].
    apply StronglySorted_inv in S1 as [S1 Hx].
    apply StronglySorted_inv in S2 as [S2 Hy].
    rewrite List.Forall_forall in Hx, Hy.
    assert (Hxy : x = y).
    { assert (Hin1 : In y (x :: t))
        by (apply (Permutation_in _ (Permutation_sym Hp)); now left).
      assert (Hin2 : In x (y :: t2)) by (apply (Permutation_in _ Hp); now left).
      destruct Hin1 as [|Hin1]; [assumption|].
      destruct Hin2 as [|Hin2]; [congruence|].
      apply Hanti; [now left | now right | now apply Hx | now apply Hy]. }
    subst y. f_equal. apply IH; try assumption.
    + intros a b Ha Hb. apply Hanti; now right.
    + eapply Permutation_cons_inv; eassumption.
Qed.

Lemma array_sort_Permutation_eq cmp l1 l2 :
  orders cmp l1 -> Permutation l1 l2 ->
  array_sort cmp l1 = array_sort cmp l2.
Proof.
  intros [Htotal Htrans Hanti] Hp.
  assert (Hss : forall l, StronglySorted (fun a b => (cmp a b <= 0)%Z) (array_sort cmp l)).
  { intros l. apply Sorted_StronglySorted; [|now apply array_sort_Sorted].
    intros a b c. apply Htrans. }
  apply (StronglySorted_Permutation_eq (fun a b => (cmp a b <= 0)%Z)); try apply Hss.
  - intros a b Ha Hb. apply Hanti;
      eapply Permutation_in; try eassumption;
        apply Permutation_sym, array_sort_Permutation.
  - rewrite <- (array_sort_Permutation cmp l1), <- (array_sort_Permutation cmp l2).
    exact Hp.
Qed.

Lemma omap_Permutation_In {A B} (f : A -> option B) l1 l2 :
  Permutation l1 l2 -> Permutation (omap f l1) (omap f l2).
Proof.
  induction 1 as [|x l l' _ IH|x y l|l l' l'' _ IH1 _ IH2]; cbn [omap list_omap].
  - constructor.
  - destruct (f x); [now constructor | assumption].
  - destruct (f x), (f y); try reflexivity. apply perm_swap.
  - now transitivity (omap f l').
Qed.

(** X11: the artifact does not depend on the order in which the matcher
    lists the files: two matchers whose answers are rearrangements of each
    other give the same run, as long as [localeCompare] orders the emitted
    lines (it is total and transitive, and no two different lines compare
    as equal). *)
Theorem main_matcher_order `{RT : JsRuntime} (fg1 fg2 : matcher) (argv : MainArgv)
  (w : World) :
  let base_path := paths [cwd w; argv_dir argv] in
  let out_path := paths (cwd w :: split_on NodePath.is_slash (argv_out argv)) in
  orders localeCompare
    (package_files argv w base_path out_path
       (fg1 (include_glob argv) base_path (ignore_glob argv) (files w))) ->
  Permutation (fg1 (include_glob argv) base_path (ignore_glob argv) (files w))
              (fg2 (include_glob argv) base_path (ignore_glob argv) (files w)) ->
  main_gen_package_exports fg1 argv w = main_gen_package_exports fg2 argv w.
Proof.
  intros b o Hord Hp. rewrite !main_cases. fold b o.
  assert (Hl : run_lines fg1 argv w b o = run_lines fg2 argv w b o).
  { unfold run_lines. apply array_sort_Permutation_eq; [exact Hord|].
    rewrite !package_files_omap. now apply omap_Permutation_In. }
  now rewrite Hl.
Qed.

Lemma lex_compare_refl a : lex_compare a a = Eq.
Proof. induction a as [|x a IH]; simpl; [reflexivity|]. now rewrite N.compare_refl. Qed.

Lemma lex_compare_Eq a b : lex_compare a b = Eq -> a = b.
Proof.
  revert b. induction a as [|x a IH]; intros [|y b]; simpl; try discriminate;
    [reflexivity|].
  destruct (x ?= y) eqn:Hxy; try discriminate.
  apply N.compare_eq in Hxy. intros H. f_equal; auto.
Qed.

Lemma lex_compare_Lt_trans a b c :
  lex_compare a b = Lt -> lex_compare b c = Lt -> lex_compare a c = Lt.
Proof.
  revert b c. induction a as [|x a IH]; intros [|y b] [|z c]; simpl;
    try discriminate; try reflexivity.
  destruct (x ?= y) eqn:Hxy; try discriminate;
    destruct (y ?= z) eqn:Hyz; try discriminate.
  - apply N.compare_eq in Hxy, Hyz. subst. rewrite N.compare_refl. apply IH.
  - apply N.compare_eq in Hxy. subst. now rewrite Hyz.
  - apply N.compare_eq in Hyz. subst. now rewrite Hxy.
  - intros _ _. rewrite N.compare_lt_iff in Hxy, Hyz.
    assert (H : x < z) by lia. apply N.compare_lt_iff in H. now rewrite H.
Qed.

Lemma lex_compare_le_trans a b c :
  lex_compare a b <> Gt -> lex_compare b c <> Gt -> lex_compare a c <> Gt.
Proof.
  destruct (lex_compare a b) eqn:Hab; [| |congruence];
    destruct (lex_compare b c) eqn:Hbc; try congruence; intros _ _.
  - apply lex_compare_Eq in Hab, Hbc. subst. now rewrite lex_compare_refl.
  - apply lex_compare_Eq in Hab. subst. now rewrite Hbc.
  - apply lex_compare_Eq in Hbc. subst. now rewrite Hab.
  - now rewrite (lex_compare_Lt_trans a b c Hab Hbc).
Qed.

Lemma collate_le a b :
  (Ascii_runtime.collate a b <= 0)%Z <->
  match lex_compare (List.map Ascii_runtime.primary a)
                    (List.map Ascii_runtime.primary b) with
  | Lt => True
  | Gt => False
  | Eq => lex_compare (List.map Ascii_runtime.tertiary a)
                      (List.map Ascii_runtime.tertiary b) <> Gt
  end.
Proof.
  unfold Ascii_runtime.collate.
  destruct (lex_compare (List.map Ascii_runtime.primary a)
                        (List.map Ascii_runtime.primary b));
    [destruct (lex_compare (List.map Ascii_runtime.tertiary a)
                           (List.map Ascii_runtime.tertiary b))| |];
    split; intros; try easy; try lia.
Qed.

Lemma collate_trans a b c :
  (Ascii_runtime.collate a b <= 0)%Z -> (Ascii_runtime.collate b c <= 0)%Z ->
  (Ascii_runtime.collate a c <= 0)%Z.
Proof.
  rewrite !collate_le.
  destruct (lex_compare (List.map Ascii_runtime.primary a)
                        (List.map Ascii_runtime.primary b)) eqn:Hab; [| |easy];
    destruct (lex_compare (List.map Ascii_runtime.primary b)
                          (List.map Ascii_runtime.primary c)) eqn:Hbc; try easy.
  - apply lex_compare_Eq in Hab, Hbc. rewrite Hab, Hbc, lex_compare_refl.
    apply lex_compare_le_trans.
  - apply lex_compare_Eq in Hab. rewrite Hab, Hbc. easy.
  - apply lex_compare_Eq in Hbc. rewrite <- Hbc, Hab. easy.
  - rewrite (lex_compare_Lt_trans _ _ _ Hab Hbc). easy.
Qed.

Lemma mixed_case_lines_ordered :
  orders Ascii_runtime.collate
    [plain_line (js "./B") (js ".js"); plain_line (js "./a") (js ".js")].
Proof.
  split.
  - apply collate_total.
  - apply collate_trans.
  - intros a b [<-|[<-|[]]] [<-|[<-|[]]] H1 H2; try reflexivity; exfalso.
    + assert (Hc : Ascii_runtime.collate (plain_line (js "./B") (js ".js"))
                     (plain_line (js "./a") (js ".js")) = 1%Z) by (vm_compute; reflexivity).
      lia.
    + assert (Hc : Ascii_runtime.collate (plain_line (js "./B") (js ".js"))
                     (plain_line (js "./a") (js ".js")) = 1%Z) by (vm_compute; reflexivity).
      lia.
Qed.

Lemma main_matcher_order_witness :
  @main_gen_package_exports Ascii_runtime.runtime
    (Ascii_runtime.answering [js "B.ts"; js "a.ts"]) default_argv tree_mixed_case
  = @main_gen_package_exports Ascii_runtime.runtime
      (Ascii_runtime.answering [js "a.ts"; js "B.ts"]) default_argv tree_mixed_case.
Proof.
  apply (@main_matcher_order Ascii_runtime.runtime
           (Ascii_runtime.answering [js "B.ts"; js "a.ts"])
           (Ascii_runtime.answering [js "a.ts"; js "B.ts"])
           default_argv tree_mixed_case).
  - exact mixed_case_lines_ordered.
  - apply perm_swap.
Defined.

(* ===================================================================== *)
(** ** Reading the artifact back *)
(* ===================================================================== *)

Lemma split_on_join p sep (lines : list jsstring) :
  p sep = true -> lines <> [] ->
  Forall (fun l => forallb (fun c => negb (p c)) l = true) lines ->
  split_on p (join [sep] lines) = lines.
Proof.
  intros Hsep Hne Hclean. induction Hclean as [|l rest Hl Hrest IH]; [congruence|].
  destruct rest as [|l2 rest].
  - simpl. now apply split_on_clean.
  - change (join [sep] (l :: l2 :: rest)) with (l ++ sep :: join [sep] (l2 :: rest)).
    rewrite (split_on_app_sep p l sep _ Hsep), (split_on_clean p l Hl), IH;
      [reflexivity | discriminate].
Qed.

(** X12: the artifact can be read back line by line.  When no emitted line
    contains a line feed, splitting the artifact at the line feeds gives the
    header comment, an empty line, the sorted lines, and one last empty
    string; an artifact without lines has one more empty line instead. *)
Theorem artifact_split (lines : list jsstring) :
  Forall (fun l => forallb (fun c => negb (is_newline c)) l = true) lines ->
  split_on is_newline (artifact lines)
  = js "// Created by @radroots/dev generate-package-exports"
    :: [] :: (match lines with [] => [[]] | _ => lines end) ++ [[]].
Proof.
  intros Hclean. unfold artifact, header.
  rewrite <- app_assoc.
  change ([c_newline; c_newline] ++ join [c_newline] lines ++ [c_newline])
    with (c_newline :: ([] ++ c_newline :: (join [c_newline] lines ++ c_newline :: []))).
  rewrite !split_on_app_sep by reflexivity.
  rewrite split_on_clean by reflexivity.
  cbn [app split_on]. do 2 f_equal.
  destruct lines as [|l rest]; [reflexivity|].
  rewrite (split_on_join is_newline c_newline (l :: rest)); auto; discriminate.
Qed.

Lemma artifact_split_witness :
  split_on is_newline
    (artifact [plain_line (js "./a") (js ".js"); plain_line (js "./B") (js ".js")])
  = [js "// Created by @radroots/dev generate-package-exports"; [];
     plain_line (js "./a") (js ".js"); plain_line (js "./B") (js ".js"); []].
Proof.
  apply (artifact_split
           [plain_line (js "./a") (js ".js"); plain_line (js "./B") (js ".js")]).
  repeat constructor.
Defined.

(* ===================================================================== *)
(** ** The import specifier, segment by segment *)
(* ===================================================================== *)

Lemma proper_segment_spec s :
  proper_segment s = true <->
  s <> [] /\ s <> [c_dot] /\ s <> NodePath.dotdot
  /\ forallb (fun c => negb (NodePath.is_slash c)) s = true.
Proof.
  unfold proper_segment, jsstring_eqb. rewrite !andb_true_iff, !negb_true_iff.
  rewrite !bool_decide_eq_false. tauto.
Qed.

Lemma proper_segment_clean s :
  proper_segment s = true -> forallb (fun c => negb (NodePath.is_slash c)) s = true.
Proof. intros H. now apply proper_segment_spec in H. Qed.

Lemma normalizeSegments_app allow res l1 l2 :
  NodePath.normalizeSegments allow res (l1 ++ l2)
  = NodePath.normalizeSegments allow
      (rev (NodePath.normalizeSegments allow res l1)) l2.
Proof.
  revert res. induction l1 as [|seg l1 IH]; intros res.
  - cbn [app NodePath.normalizeSegments]. now rewrite rev_involutive.
  - cbn [app NodePath.normalizeSegments].
    destruct (jsstring_eqb seg [] || jsstring_eqb seg [c_dot]); [apply IH|].
    destruct (jsstring_eqb seg NodePath.dotdot); [|apply IH].
    destruct res as [|top res']; [apply IH|].
    destruct (jsstring_eqb top NodePath.dotdot); apply IH.
Qed.

Lemma normalizeSegments_proper allow res segs :
  Forall (fun s => proper_segment s = true) segs ->
  NodePath.normalizeSegments allow res segs = rev res ++ segs.
Proof.
  intros H. revert res. induction H as [|seg segs Hseg _ IH]; intros res.
  - cbn. now rewrite app_nil_r.
  - apply proper_segment_spec in Hseg as (H1 & H2 & H3 & _).
    cbn [NodePath.normalizeSegments]. unfold jsstring_eqb.
    rewrite !bool_decide_eq_false_2 by assumption. cbn [orb].
    rewrite IH. cbn [rev]. now rewrite <- app_assoc.
Qed.

Lemma normalizeSegments_skip_empty allow res :
  NodePath.normalizeSegments allow res [[]] = rev res.
Proof. reflexivity. Qed.

(** Normalisation keeps proper segments only. *)
Lemma normalizeSegments_Forall_proper res segs :
  Forall (fun s => proper_segment s = true) res ->
  Forall (fun s => forallb (fun c => negb (NodePath.is_slash c)) s = true) segs ->
  Forall (fun s => proper_segment s = true)
         (NodePath.normalizeSegments false res segs).
Proof.
  intros Hres Hsegs. revert res Hres.
  induction Hsegs as [|seg segs Hseg _ IH]; intros res Hres.
  - cbn. now apply List.Forall_rev.
  - cbn [NodePath.normalizeSegments]. unfold jsstring_eqb.
    case_bool_decide as H1; [now apply IH|].
    case_bool_decide as H2; [now apply IH|]. cbn [orb].
    case_bool_decide as H3.
    + destruct res as [|top res']; [now apply IH|].
      case_bool_decide; [now apply IH|].
      apply IH. now inversion Hres.
    + apply IH. constructor; [|assumption].
      apply proper_segment_spec. auto.
Qed.

Lemma normal_segments_proper p :
  Forall (fun s => proper_segment s = true) (normal_segments p).
Proof.
  apply normalizeSegments_Forall_proper; [constructor | apply split_on_parts].
Qed.

Lemma split_on_slash_join segs :
  segs <> [] -> Forall (fun s => proper_segment s = true) segs ->
  split_on NodePath.is_slash (join [c_slash] segs) = segs.
Proof.
  intros Hne H. apply split_on_join; [reflexivity | assumption |].
  eapply List.Forall_impl; [|exact H]. intros s. apply proper_segment_clean.
Qed.

Lemma join_cons_nonempty sep (x : jsstring) rest :
  rest <> [] -> join sep (x :: rest) = x ++ sep ++ join sep rest.
Proof. destruct rest; [congruence | reflexivity]. Qed.

(** The normalised segments of [p/q], for [q] a chain of proper segments *)
Lemma normal_segments_join p segs :
  Forall (fun s => proper_segment s = true) segs ->
  normal_segments (join [c_slash] (p :: segs)) = normal_segments p ++ segs.
Proof.
  intros H. destruct segs as [|s0 segs]; [cbn; now rewrite app_nil_r|].
  rewrite join_cons_nonempty by discriminate. unfold normal_segments.
  change (p ++ [c_slash] ++ join [c_slash] (s0 :: segs))
    with (p ++ c_slash :: join [c_slash] (s0 :: segs)).
  rewrite split_on_app_sep by reflexivity.
  rewrite split_on_slash_join by (auto; discriminate).
  rewrite normalizeSegments_app, normalizeSegments_proper by assumption.
  now rewrite rev_involutive.
Qed.

Lemma normal_segments_trailing_slash p :
  normal_segments (p ++ [c_slash]) = normal_segments p.
Proof.
  unfold normal_segments.
  rewrite (split_on_app_sep NodePath.is_slash p c_slash []) by reflexivity.
  rewrite normalizeSegments_app. cbn [split_on].
  rewrite normalizeSegments_skip_empty. now rewrite rev_involutive.
Qed.

Lemma normal_segments_absolute segs :
  Forall (fun s => proper_segment s = true) segs ->
  normal_segments (c_slash :: join [c_slash] segs) = segs.
Proof.
  intros H. unfold normal_segments.
  change (c_slash :: join [c_slash] segs) with ([] ++ c_slash :: join [c_slash] segs).
  rewrite split_on_app_sep by reflexivity. cbn [split_on app].
  destruct segs as [|s0 segs]; [reflexivity|].
  rewrite split_on_slash_join; [|discriminate|assumption].
  change (NodePath.normalizeSegments false [] ([] :: s0 :: segs))
    with (NodePath.normalizeSegments false [] (s0 :: segs)).
  rewrite normalizeSegments_proper by assumption. reflexivity.
Qed.

Lemma isAbsolute_cons p : NodePath.isAbsolute p = true -> exists p', p = c_slash :: p'.
Proof.
  destruct p as [|c p']; [discriminate|]. unfold NodePath.isAbsolute.
  change (startsWith [c_slash] (c :: p')) with ((c_slash =? c) && true).
  rewrite andb_true_r. intros H. apply N.eqb_eq in H. subst c. eauto.
Qed.

Lemma resolve_absolute cwd a :
  NodePath.isAbsolute a = true ->
  NodePath.resolve cwd [a] = c_slash :: join [c_slash] (normal_segments a).
Proof.
  intros Ha. destruct (isAbsolute_cons a Ha) as [a' ->].
  unfold NodePath.resolve. cbn [rev app NodePath.resolve_scan].
  rewrite Ha. rewrite <- (normal_segments_trailing_slash (c_slash :: a')).
  reflexivity.
Qed.

Lemma resolve_under cwd base f :
  NodePath.isAbsolute base = true -> f <> [] -> NodePath.isAbsolute f = false ->
  NodePath.resolve cwd [base; f]
  = c_slash :: join [c_slash] (normal_segments (base ++ [c_slash] ++ f)).
Proof.
  intros Hb Hf Hrel. destruct (isAbsolute_cons base Hb) as [b' ->].
  destruct f as [|c f']; [congruence|].
  rewrite <- (normal_segments_trailing_slash ((c_slash :: b') ++ [c_slash] ++ c :: f')).
  set (rhs := c_slash :: join [c_slash] _).
  unfold NodePath.resolve. cbn [rev app NodePath.resolve_scan].
  rewrite Hrel, Hb. subst rhs.
  unfold NodePath.normalizeString, normal_segments. cbn [negb].
  now rewrite <- !app_assoc.
Qed.

Lemma strip_common_refl l : NodePath.strip_common l l = ([], []).
Proof.
  induction l as [|x l IH]; [reflexivity|]. cbn [NodePath.strip_common].
  unfold jsstring_eqb. now rewrite bool_decide_eq_true_2.
Qed.

Lemma strip_common_app l a b :
  NodePath.strip_common (l ++ a) (l ++ b) = NodePath.strip_common a b.
Proof.
  induction l as [|x l IH]; [reflexivity|]. cbn [app NodePath.strip_common].
  unfold jsstring_eqb. now rewrite bool_decide_eq_true_2.
Qed.

Lemma climb_refl l : climb l l = [].
Proof. unfold climb. now rewrite strip_common_refl. Qed.

(** [path.relative] is always the climb between the segments of the two
    resolved paths; its two early exits are the case of an empty climb. *)
Lemma relative_climb cwd a b :
  NodePath.relative cwd a b
  = climb (NodePath.segments (NodePath.resolve cwd [a]))
          (NodePath.segments (NodePath.resolve cwd [b])).
Proof.
  unfold NodePath.relative, jsstring_eqb.
  case_bool_decide as Hab; [subst; now rewrite climb_refl|].
  case_bool_decide as Hr; [rewrite Hr; now rewrite climb_refl|].
  reflexivity.
Qed.

Lemma filter_nonempty_proper segs :
  Forall (fun s => proper_segment s = true) segs ->
  List.filter (fun s => negb (jsstring_eqb s [])) segs = segs.
Proof.
  induction 1 as [|s segs Hs _ IH]; [reflexivity|]. cbn [List.filter].
  apply proper_segment_spec in Hs as (Hne & _).
  unfold jsstring_eqb at 1. rewrite bool_decide_eq_false_2 by assumption.
  cbn [negb]. now rewrite IH.
Qed.

Lemma segments_absolute segs :
  Forall (fun s => proper_segment s = true) segs ->
  NodePath.segments (c_slash :: join [c_slash] segs) = segs.
Proof.
  intros H. unfold NodePath.segments.
  change (c_slash :: join [c_slash] segs) with ([] ++ c_slash :: join [c_slash] segs).
  rewrite split_on_app_sep by reflexivity. cbn [split_on app].
  destruct segs as [|s0 segs]; [reflexivity|].
  rewrite split_on_slash_join; [|discriminate|assumption].
  change (List.filter (fun s => negb (jsstring_eqb s [])) ([] :: s0 :: segs))
    with (List.filter (fun s => negb (jsstring_eqb s [])) (s0 :: segs)).
  now apply filter_nonempty_proper.
Qed.

Lemma join_snoc_app sep (l : list jsstring) x y :
  join sep (l ++ [x ++ y]) = join sep (l ++ [x]) ++ y.
Proof.
  induction l as [|a l IH]; [reflexivity|].
  cbn [app]. destruct (l ++ [x ++ y]) as [|b r] eqn:E1;
    [now destruct l|].
  destruct (l ++ [x]) as [|b' r'] eqn:E2; [now destruct l|].
  change (join sep (a :: b :: r)) with (a ++ sep ++ join sep (b :: r)).
  change (join sep (a :: b' :: r')) with (a ++ sep ++ join sep (b' :: r')).
  rewrite IH. now rewrite <- !app_assoc.
Qed.

Lemma module_ext_shape e :
  same_word_ci (js ".ts") e || same_word_ci (js ".svelte") e = true ->
  (3 <= length e)%nat /\ forallb (fun c => negb (NodePath.is_slash c)) e = true.
Proof.
  intros He. apply orb_true_iff in He as [He|He];
    unfold same_word_ci in He; apply andb_true_iff in He as [Hlen Hci];
    apply Nat.eqb_eq in Hlen.
  - do 4 (destruct e as [|? e]; try discriminate Hlen).
    unfold endsWith_ci in Hci. cbn in Hci.
    repeat (apply andb_true_iff in Hci as [? Hci]).
    repeat match goal with
           | H : (_ || _) = true |- _ => apply orb_true_iff in H as [H|H]
           | H : (_ =? _) = true |- _ => apply N.eqb_eq in H; subst
           end; split; cbn; (lia || reflexivity).
  - do 8 (destruct e as [|? e]; try discriminate Hlen).
    unfold endsWith_ci in Hci. cbn in Hci.
    repeat (apply andb_true_iff in Hci as [? Hci]).
    repeat match goal with
           | H : (_ || _) = true |- _ => apply orb_true_iff in H as [H|H]
           | H : (_ =? _) = true |- _ => apply N.eqb_eq in H; subst
           end; split; cbn; (lia || reflexivity).
Qed.

Lemma proper_segment_ext stem e :
  proper_segment stem = true ->
  same_word_ci (js ".ts") e || same_word_ci (js ".svelte") e = true ->
  proper_segment (stem ++ e) = true.
Proof.
  intros Hs He. apply proper_segment_spec in Hs as (Hne & _ & _ & Hclean).
  destruct (module_ext_shape e He) as [Hlen Hec].
  apply proper_segment_spec. repeat split.
  - destruct stem; [congruence | discriminate].
  - intros H. apply (f_equal length) in H. rewrite List.length_app in H.
    cbn in H. lia.
  - intros H. apply (f_equal length) in H. rewrite List.length_app in H.
    cbn in H. lia.
  - rewrite forallb_app. now rewrite Hclean, Hec.
Qed.

Lemma join_head_proper segs :
  segs <> [] -> Forall (fun s => proper_segment s = true) segs ->
  join [c_slash] segs <> [] /\ NodePath.isAbsolute (join [c_slash] segs) = false.
Proof.
  intros Hne H. destruct H as [|s segs Hs _]; [congruence|].
  apply proper_segment_spec in Hs as (Hs & _ & _ & Hclean).
  destruct s as [|c s]; [congruence|].
  cbn [forallb] in Hclean. apply andb_true_iff in Hclean as [Hc _].
  apply negb_true_iff in Hc. unfold NodePath.is_slash in Hc.
  assert (Hj : exists r, join [c_slash] ((c :: s) :: segs) = c :: r).
  { destruct segs; cbn; eauto. }
  destruct Hj as [r ->]. split; [discriminate|].
  unfold NodePath.isAbsolute.
  change (startsWith [c_slash] (c :: r)) with ((c_slash =? c) && true).
  rewrite N.eqb_sym, Hc. reflexivity.
Qed.

(** X13: the import specifier of a module, computed on the segments of its
    path.  For an absolute base directory, an output directory [od] below
    it and a module [fd/stem.ext] below it (all segments proper, the
    extension [.ts] or [.svelte] in any case), the specifier is the climb
    from [od] to [fd/stem]: one ['..'] for every segment of [od] after the
    common leading ones, then what is left of [fd/stem], without the
    extension; backslashes become slashes and ['./'] is prepended unless the
    result begins with a dot.  It depends neither on the working directory
    nor on the base directory. *)
Theorem rel_from_out_climb (w : World) (base stem e : jsstring)
  (od fd : list jsstring) :
  NodePath.isAbsolute base = true ->
  Forall (fun s => proper_segment s = true) od ->
  Forall (fun s => proper_segment s = true) fd ->
  proper_segment stem = true ->
  same_word_ci (js ".ts") e || same_word_ci (js ".svelte") e = true ->
  rel_from_out w base (join [c_slash] (base :: od))
    (join [c_slash] (fd ++ [stem ++ e]))
  = dot_prefixed (to_posix (climb od (fd ++ [stem]))).
Proof.
  intros Hb Hod Hfd Hstem He.
  pose proof (proper_segment_ext stem e Hstem He) as Hfile.
  assert (Hf : Forall (fun s => proper_segment s = true) (fd ++ [stem ++ e])).
  { apply List.Forall_app. split; [assumption | now constructor]. }
  assert (Hf' : Forall (fun s => proper_segment s = true) (fd ++ [stem])).
  { apply List.Forall_app. split; [assumption | now constructor]. }
  destruct (join_head_proper (fd ++ [stem ++ e])) as [Hne Hrel];
    [now destruct fd | assumption |].
  unfold rel_from_out. do 2 f_equal.
  rewrite (resolve_under (cwd w) base _ Hb Hne Hrel).
  rewrite <- (join_cons_nonempty [c_slash] base (fd ++ [stem ++ e]))
    by now destruct fd.
  rewrite (normal_segments_join base _ Hf).
  rewrite app_assoc, join_snoc_app, <- app_assoc.
  change (c_slash :: join [c_slash] (normal_segments base ++ fd ++ [stem]) ++ e)
    with ((c_slash :: join [c_slash] (normal_segments base ++ fd ++ [stem])) ++ e).
  rewrite (strip_module_ext_suffix _ e He).
  assert (Hall : Forall (fun s => proper_segment s = true)
                        (normal_segments base ++ fd ++ [stem])).
  { apply List.Forall_app. split; [apply normal_segments_proper | assumption]. }
  assert (Hout : Forall (fun s => proper_segment s = true)
                        (normal_segments base ++ od)).
  { apply List.Forall_app. split; [apply normal_segments_proper | assumption]. }
  rewrite relative_climb.
  rewrite (resolve_absolute (cwd w) (join [c_slash] (base :: od))).
  - rewrite (resolve_absolute (cwd w) (c_slash :: _)) by reflexivity.
    rewrite (normal_segments_join base od Hod).
    rewrite (normal_segments_absolute _ Hall).
    rewrite (segments_absolute _ Hout), (segments_absolute _ Hall).
    unfold climb. now rewrite strip_common_app.
  - destruct (isAbsolute_cons base Hb) as [b' ->]. now destruct od.
Qed.

Lemma rel_from_out_climb_witness :
  rel_from_out tree_a_card (js "/w/src")
    (join [c_slash] [js "/w/src"; js "lib"; js "gen"])
    (join [c_slash] ([js "lib"; js "ui"] ++ [js "user-card" ++ js ".svelte"]))
  = js "../ui/user-card".
Proof.
  apply (rel_from_out_climb tree_a_card (js "/w/src") (js "user-card")
           (js ".svelte") [js "lib"; js "gen"] [js "lib"; js "ui"]);
    repeat constructor.
Defined.

(* ===================================================================== *)
(** ** The names of the theme variables *)
(* ===================================================================== *)

Lemma replace_runs_Forall (Q : code_unit -> Prop) c r s :
  Q r -> Forall Q s -> Forall Q (replace_runs c r s).
Proof.
  intros Hr. induction 1 as [|x s Hx Hs IH]; [constructor|].
  cbn [replace_runs]. destruct (x =? c).
  - destruct s as [|y s]; [repeat constructor; assumption|].
    destruct (y =? c); [exact IH | now constructor].
  - now constructor.
Qed.

Lemma replace_runs_removes c r s :
  r <> c -> Forall (fun x => x <> c) (replace_runs c r s).
Proof.
  intros Hr. induction s as [|x s IH]; [constructor|].
  cbn [replace_runs]. destruct (N.eqb_spec x c) as [->|Hx].
  - destruct s as [|y s]; [repeat constructor; assumption|].
    destruct (y =? c); [exact IH | now constructor].
  - now constructor.
Qed.

Lemma no_double_cons c x y s :
  no_double c (x :: y :: s) = negb ((x =? c) && (y =? c)) && no_double c (y :: s).
Proof. reflexivity. Qed.

Lemma replace_runs_no_double c s : no_double c (replace_runs c c s) = true.
Proof.
  induction s as [|x s IH]; [reflexivity|].
  cbn [replace_runs]. destruct (N.eqb_spec x c) as [->|Hx].
  - destruct s as [|y s]; [reflexivity|].
    destruct (N.eqb_spec y c) as [->|Hy]; [exact IH|].
    cbn [replace_runs] in IH |- *.
    apply N.eqb_neq in Hy. rewrite Hy in IH |- *.
    rewrite no_double_cons, Hy, andb_false_r. exact IH.
  - destruct (replace_runs c c s) as [|z o] eqn:Ho; [reflexivity|].
    rewrite no_double_cons. apply N.eqb_neq in Hx. rewrite Hx. exact IH.
Qed.

Lemma no_double_removelast c s : no_double c s = true -> no_double c (removelast s) = true.
Proof.
  induction s as [|x s IH]; [reflexivity|].
  destruct s as [|y s]; [reflexivity|].
  intros H. cbn [no_double] in H. apply andb_true_iff in H as [Hxy Hs].
  specialize (IH Hs).
  destruct s as [|z s]; [reflexivity|].
  change (removelast (x :: y :: z :: s)) with (x :: y :: removelast (z :: s)).
  change (removelast (y :: z :: s)) with (y :: removelast (z :: s)) in IH.
  rewrite no_double_cons, Hxy. exact IH.
Qed.

Lemma no_double_last c s :
  no_double c s = true -> last s = Some c -> last (removelast s) <> Some c.
Proof.
  induction s as [|x s IH]; [discriminate|].
  destruct s as [|y s]; [discriminate|].
  intros H Hl. cbn [no_double] in H. apply andb_true_iff in H as [Hxy Hs].
  destruct s as [|z s].
  - cbn in Hl |- *. injection Hl as ->. rewrite N.eqb_refl, andb_true_r in Hxy.
    apply negb_true_iff, N.eqb_neq in Hxy. congruence.
  - apply (IH Hs Hl).
Qed.

Lemma removelast_Forall (Q : code_unit -> Prop) s : Forall Q s -> Forall Q (removelast s).
Proof.
  induction 1 as [|x s Hx Hs IH]; [constructor|].
  destruct s; [constructor | now constructor].
Qed.

Lemma startsWith_removelast p s :
  startsWith p s = true -> (length p < length s)%nat ->
  startsWith p (removelast s) = true.
Proof.
  revert s. induction p as [|a p IH]; intros s; [reflexivity|].
  destruct s as [|b s]; [discriminate|].
  cbn [startsWith length]. intros H Hlen. apply andb_true_iff in H as [Hab Hp].
  destruct s as [|b' s]; [cbn in Hlen; lia|].
  change (removelast (b :: b' :: s)) with (b :: removelast (b' :: s)).
  cbn [startsWith]. rewrite Hab. apply IH; [exact Hp | cbn [length] in *; lia].
Qed.

Lemma includes_Forall c s :
  Forall (fun x => x <> c) s -> includes c s = false.
Proof.
  unfold includes. induction 1 as [|x s Hx _ IH]; [reflexivity|].
  cbn [existsb]. rewrite IH, orb_false_r. apply N.eqb_neq. congruence.
Qed.

(** X14: the name of a theme variable is in a normal form, whatever the
    layer index and the entry name are: it begins with [color-ly], has no
    underscore, has no two hyphens in a row, and does not end with a
    hyphen. *)
Theorem var_name_normal (idx name : jsstring) (is_glyphs : bool) :
  startsWith (js "color-ly") (var_name idx is_glyphs name) = true
  /\ includes c_underscore (var_name idx is_glyphs name) = false
  /\ no_double c_minus (var_name idx is_glyphs name) = true
  /\ last (var_name idx is_glyphs name) <> Some c_minus.
Proof.
  unfold var_name.
  set (t := idx ++ (if is_glyphs then js "-gl" else []) ++ js "-" ++ name).
  set (t2 := replace_runs c_minus c_minus (replace_runs c_underscore c_minus t)).
  set (s2 := replace_runs c_minus c_minus
               (replace_runs c_underscore c_minus (js "color-ly" ++ t))).
  assert (Hs2 : s2 = js "color-ly" ++ t2) by reflexivity.
  assert (H2 : Forall (fun x => x <> c_underscore) s2).
  { apply replace_runs_Forall; [discriminate|].
    apply replace_runs_removes. discriminate. }
  assert (H3 : no_double c_minus s2 = true) by apply replace_runs_no_double.
  assert (Hstart : startsWith (js "color-ly") s2 = true)
    by (rewrite Hs2; apply startsWith_app).
  unfold strip_final_minus.
  destruct (last s2) as [c|] eqn:Hlast.
  - destruct (N.eqb_spec c c_minus) as [->|Hc].
    + repeat split.
      * apply startsWith_removelast; [exact Hstart|].
        rewrite Hs2, List.length_app. destruct t2 as [|x t2'].
        -- rewrite Hs2, app_nil_r in Hlast. discriminate.
        -- cbn [length]. lia.
      * apply includes_Forall. now apply removelast_Forall.
      * now apply no_double_removelast.
      * now apply no_double_last.
    + repeat split; try assumption.
      * now apply includes_Forall.
      * rewrite Hlast. congruence.
  - repeat split; try assumption.
    + now apply includes_Forall.
    + rewrite Hlast. discriminate.
Qed.

Lemma push_category_map number toS f idx gl entries vars :
  push_category number toS f idx gl entries vars
  = vars ++ List.map (css_var number toS f idx gl) entries.
Proof.
  unfold push_category. revert vars.
  induction entries as [|e entries IH]; intros vars; cbn [fold_left List.map].
  - now rewrite app_nil_r.
  - now rewrite IH, <- app_assoc.
Qed.

Lemma includes_clean c s :
  includes c s = false -> forallb (fun x => negb (c =? x)) s = true.
Proof.
  unfold includes. induction s as [|x s IH]; [reflexivity|].
  cbn [existsb forallb]. intros H. apply orb_false_iff in H as [Hx Hs].
  now rewrite Hx, IH.
Qed.

(** X15: which layers give variables, and which ones.  The result lists,
    layer by layer in their order, one variable for each entry of [surface]
    and then one for each entry of [glyphs], for the layers whose key has a
    non-empty part after its first underscore; that part is the index.  A
    key without underscore, or with nothing between its first underscore and
    the next, gives nothing. *)
Theorem layers_to_css_vars_flat (number : Type) (toS : number -> jsstring)
  (layers : list (jsstring * Layer number)) (f : color_format) :
  layers_to_css_vars number toS layers f
  = flat_map (fun '(key, layer) =>
                match layer_index key with
                | None => []
                | Some idx =>
                    List.map (css_var number toS f idx false) (surface number layer)
                    ++ List.map (css_var number toS f idx true) (glyphs number layer)
                end) layers
  /\ (forall key, includes c_underscore key = false -> layer_index key = None)
  /\ (forall a idx rest,
        includes c_underscore a = false -> includes c_underscore idx = false ->
        layer_index (a ++ c_underscore :: idx) = match idx with [] => None | _ => Some idx end
        /\ layer_index (a ++ c_underscore :: idx ++ c_underscore :: rest)
           = match idx with [] => None | _ => Some idx end).
Proof.
  split; [|split].
  - unfold layers_to_css_vars.
    assert (H : forall vars,
               fold_left
                 (fun vars '(key, layer) =>
                    match layer_index key with
                    | None => vars
                    | Some idx =>
                        push_category number toS f idx true (glyphs number layer)
                          (push_category number toS f idx false (surface number layer) vars)
                    end) layers vars
               = vars ++ flat_map (fun '(key, layer) =>
                   match layer_index key with
                   | None => []
                   | Some idx =>
                       List.map (css_var number toS f idx false) (surface number layer)
                       ++ List.map (css_var number toS f idx true) (glyphs number layer)
                   end) layers).
    { induction layers as [|[key layer] layers IH]; intros vars;
        cbn [fold_left flat_map]; [now rewrite app_nil_r|].
      rewrite IH. destruct (layer_index key).
      - now rewrite !push_category_map, <- !app_assoc.
      - reflexivity. }
    apply (H []).
  - intros key Hkey. unfold layer_index.
    now rewrite (split_on_clean _ _ (includes_clean _ _ Hkey)).
  - intros a idx rest Ha Hidx. unfold layer_index. split.
    + rewrite split_on_app_sep by reflexivity.
      rewrite (split_on_clean _ _ (includes_clean _ _ Ha)),
              (split_on_clean _ _ (includes_clean _ _ Hidx)).
      reflexivity.
    + rewrite split_on_app_sep by reflexivity.
      rewrite split_on_app_sep by reflexivity.
      rewrite (split_on_clean _ _ (includes_clean _ _ Ha)),
              (split_on_clean _ _ (includes_clean _ _ Hidx)).
      reflexivity.
Qed.

(* ===================================================================== *)
(** ** The localisable prefixes *)
(* ===================================================================== *)

Lemma dirent_nested_ind (P : dirent -> Prop) :
  (forall name, P (Ent_file name)) ->
  (forall name entries, Forall P entries -> P (Ent_dir name entries)) ->
  (forall name, P (Ent_other name)) ->
  forall e, P e.
Proof.
  intros Hfile Hdir Hother.
  refine (fix IH (e : dirent) : P e :=
            match e with
            | Ent_file name => Hfile name
            | Ent_dir name entries =>
                Hdir name entries
                  ((fix go (es : list dirent) : Forall P es :=
                      match es with
                      | [] => @List.Forall_nil _ P
                      | e' :: es' => @List.Forall_cons _ P e' es' (IH e') (go es')
                      end) entries)
            | Ent_other name => Hother name
            end).
Qed.

Lemma walk_entry_dir parts name entries prefixes :
  walk_entry parts (Ent_dir name entries) prefixes
  = walk (parts ++ [name]) entries prefixes.
Proof.
  unfold walk. cbn [walk_entry]. revert prefixes.
  induction entries as [|e es IH]; intros prefixes; [reflexivity|].
  cbn [fold_left]. apply IH.
Qed.

Lemma page_dirs_entry_dir parts name entries :
  page_dirs_entry parts (Ent_dir name entries) = page_dirs (parts ++ [name]) entries.
Proof.
  unfold page_dirs. cbn [page_dirs_entry].
  induction entries as [|e es IH]; [reflexivity|].
  cbn [flat_map]. now rewrite IH.
Qed.

Lemma add_all_app xs ys prefixes :
  add_all (xs ++ ys) prefixes = add_all ys (add_all xs prefixes).
Proof. unfold add_all. apply fold_left_app. Qed.

Lemma omap_app_list {A B} (f : A -> option B) l1 l2 :
  omap f (l1 ++ l2) = omap f l1 ++ omap f l2.
Proof.
  induction l1 as [|x l1 IH]; [reflexivity|]. cbn [app omap list_omap].
  destruct (f x); cbn; now rewrite IH.
Qed.

Lemma walk_entry_pages e :
  forall parts prefixes,
    walk_entry parts e prefixes
    = add_all (omap first_clean (page_dirs_entry parts e)) prefixes.
Proof.
  induction e as [name|name entries IH|name] using dirent_nested_ind;
    intros parts prefixes.
  - cbn [walk_entry page_dirs_entry].
    destruct (jsstring_eqb name (js "+page.svelte")); [|reflexivity].
    cbn [omap list_omap]. now destruct (first_clean parts).
  - rewrite walk_entry_dir, page_dirs_entry_dir.
    generalize (parts ++ [name]). intros parts'. revert prefixes.
    unfold walk, page_dirs.
    induction IH as [|e es He _ IHes]; intros prefixes; [reflexivity|].
    cbn [fold_left flat_map]. rewrite omap_app_list, add_all_app, <- He. apply IHes.
  - reflexivity.
Qed.

Lemma walk_pages parts entries prefixes :
  walk parts entries prefixes
  = add_all (omap first_clean (page_dirs parts entries)) prefixes.
Proof.
  unfold walk, page_dirs. revert prefixes.
  induction entries as [|e es IH]; intros prefixes; [reflexivity|].
  cbn [fold_left flat_map]. now rewrite omap_app_list, add_all_app, <- walk_entry_pages.
Qed.

Lemma set_has_In x s : existsb (jsstring_eqb x) s = true <-> In x s.
Proof.
  rewrite existsb_exists. unfold jsstring_eqb. split.
  - intros (y & Hy & Heq). apply bool_decide_eq_true in Heq. now subst.
  - intros H. exists x. split; [assumption | now apply bool_decide_eq_true].
Qed.

Lemma set_add_In x s p : In p (set_add x s) <-> In p s \/ p = x.
Proof.
  unfold set_add. destruct (existsb (jsstring_eqb x) s) eqn:Hx.
  - apply set_has_In in Hx. split; [auto | intros [H| ->]; assumption].
  - rewrite List.in_app_iff. cbn. intuition congruence.
Qed.

Lemma set_add_NoDup x s : List.NoDup s -> List.NoDup (set_add x s).
Proof.
  intros Hs. unfold set_add. destruct (existsb (jsstring_eqb x) s) eqn:Hx; [assumption|].
  assert (Hnot : ~ In x s).
  { intros Hin. apply set_has_In in Hin. congruence. }
  clear Hx. induction Hs as [|y s Hy Hs IH]; cbn.
  - constructor; [intros [] | constructor].
  - constructor.
    + rewrite List.in_app_iff. cbn. intros [H|[H|[]]]; [now apply Hy|].
      apply Hnot. now left.
    + apply IH. intros H. apply Hnot. now right.
Qed.

Lemma add_all_In xs prefixes p :
  In p (add_all xs prefixes) <-> In p prefixes \/ In p xs.
Proof.
  unfold add_all. revert prefixes.
  induction xs as [|x xs IH]; intros prefixes; cbn [fold_left].
  - cbn. tauto.
  - rewrite IH, set_add_In. cbn. intuition congruence.
Qed.

Lemma add_all_NoDup xs prefixes : List.NoDup prefixes -> List.NoDup (add_all xs prefixes).
Proof.
  unfold add_all. revert prefixes.
  induction xs as [|x xs IH]; intros prefixes H; cbn [fold_left]; [assumption|].
  apply IH. now apply set_add_NoDup.
Qed.

Lemma first_clean_Some parts p :
  first_clean parts = Some p ->
  p <> [] /\ is_skippable p = false /\ In p parts.
Proof.
  unfold first_clean.
  destruct (List.filter (fun q => negb (is_skippable q)) parts) as [|q r] eqn:Hf;
    [discriminate|].
  assert (Hin : In q (List.filter (fun q => negb (is_skippable q)) parts))
    by (rewrite Hf; now left).
  apply List.filter_In in Hin as [Hin Hq].
  destruct q as [|c q]; [discriminate|]. intros [= <-].
  repeat split; [discriminate | now apply negb_true_iff | assumption].
Qed.

(** X16: the localisable prefixes of a routes tree.  A name is a prefix
    exactly when some directory of the tree holds a [+page.svelte] and the
    name is the first directory on the way down to it that does not begin
    with ['('] or ['[']; a page directly in the base directory, or reached
    through such directories only, gives none.  No prefix is listed twice,
    none is empty and none begins with ['('] or ['[']. *)
Theorem get_localisable_prefixes_pages (entries : list dirent) :
  List.NoDup (get_localisable_prefixes entries)
  /\ (forall p,
        In p (get_localisable_prefixes entries) <->
        exists parts, In parts (page_dirs [] entries) /\ first_clean parts = Some p)
  /\ (forall p,
        In p (get_localisable_prefixes entries) ->
        p <> [] /\ is_skippable p = false).
Proof.
  unfold get_localisable_prefixes. rewrite walk_pages.
  assert (Hiff : forall p,
            In p (add_all (omap first_clean (page_dirs [] entries)) []) <->
            exists parts, In parts (page_dirs [] entries) /\ first_clean parts = Some p).
  { intros p. rewrite add_all_In. split.
    - intros [[]|Hin]. apply list_elem_of_In, list_elem_of_omap in Hin.
      destruct Hin as (parts & Hin & Hf). exists parts. split; [|assumption].
      now apply list_elem_of_In.
    - intros (parts & Hin & Hf). right.
      apply list_elem_of_In, list_elem_of_omap. exists parts.
      split; [|assumption]. now apply list_elem_of_In. }
  split; [|split].
  - apply add_all_NoDup. constructor.
  - exact Hiff.
  - intros p Hp. apply Hiff in Hp as (parts & _ & Hf).
    apply first_clean_Some in Hf. tauto.
Qed.

(* ===================================================================== *)
(** ** The output file of the localised routes *)
(* ===================================================================== *)

Lemma last_join_cons sep (a : jsstring) segs s :
  s <> [] -> last (join sep (a :: segs ++ [s])) = last s.
Proof.
  intros Hs. revert a. induction segs as [|b segs IH]; intros a.
  - cbn [app]. change (join sep [a; s]) with (a ++ sep ++ s).
    rewrite !last_app. destruct (last s) eqn:E; [reflexivity|].
    destruct s; [congruence|]. now apply last_None in E.
  - cbn [app]. rewrite join_cons_nonempty by discriminate.
    rewrite !last_app. rewrite (IH b).
    destruct (last s) eqn:E; [reflexivity|].
    destruct s; [congruence|]. now apply last_None in E.
Qed.

Lemma proper_segment_last s :
  proper_segment s = true -> exists c, last s = Some c /\ NodePath.is_slash c = false.
Proof.
  intros H. apply proper_segment_spec in H as (Hne & _ & _ & Hclean).
  destruct (last s) as [c|] eqn:E; [|now apply last_None in E].
  exists c. split; [reflexivity|].
  apply last_Some_elem_of, list_elem_of_In in E.
  rewrite forallb_forall in Hclean. specialize (Hclean c E).
  now apply negb_true_iff.
Qed.

Lemma normalize_absolute p :
  NodePath.isAbsolute p = true -> NodePath.endsWithSlash p = false ->
  NodePath.normalize p = c_slash :: join [c_slash] (normal_segments p).
Proof.
  intros Ha He. destruct (isAbsolute_cons p Ha) as [p' ->].
  unfold NodePath.normalize, NodePath.normalizeString. rewrite Ha, He. cbn [negb].
  fold (normal_segments (c_slash :: p')).
  now destruct (join [c_slash] (normal_segments (c_slash :: p'))).
Qed.

(** [path.join] of an absolute path and a chain of proper segments *)
Lemma join_paths_under a segs s :
  NodePath.isAbsolute a = true ->
  Forall (fun x => proper_segment x = true) (segs ++ [s]) ->
  NodePath.join_paths (a :: segs ++ [s])
  = c_slash :: join [c_slash] (normal_segments a ++ segs ++ [s]).
Proof.
  intros Ha Hsegs. unfold NodePath.join_paths.
  assert (Hfilter : List.filter (fun p => negb (jsstring_eqb p [])) (a :: segs ++ [s])
                    = a :: segs ++ [s]).
  { cbn [List.filter]. destruct (isAbsolute_cons a Ha) as [a' ->].
    unfold jsstring_eqb at 1. rewrite bool_decide_eq_false_2 by discriminate.
    cbn [negb]. now rewrite filter_nonempty_proper. }
  rewrite Hfilter.
  assert (Hs : proper_segment s = true).
  { apply List.Forall_app in Hsegs as [_ Hs]. now inversion Hs. }
  destruct (proper_segment_last s Hs) as (c & Hlast & Hc).
  rewrite normalize_absolute.
  - now rewrite normal_segments_join.
  - destruct (isAbsolute_cons a Ha) as [a' ->]. now destruct segs.
  - unfold NodePath.endsWithSlash. rewrite last_join_cons, Hlast; [exact Hc|].
    apply proper_segment_spec in Hs. tauto.
Qed.

Lemma absolute_join_facts segs s :
  Forall (fun x => proper_segment x = true) (segs ++ [s]) ->
  let p := c_slash :: join [c_slash] (segs ++ [s]) in
  NodePath.isAbsolute p = true
  /\ NodePath.endsWithSlash p = false
  /\ normal_segments p = segs ++ [s]
  /\ (forall cwd, NodePath.resolve cwd [p] = p)
  /\ NodePath.dirname p = c_slash :: join [c_slash] segs.
Proof.
  intros H p.
  assert (Hs : proper_segment s = true).
  { apply List.Forall_app in H as [_ Hs]. now inversion Hs. }
  assert (Hsegs : Forall (fun x => proper_segment x = true) segs)
    by now apply List.Forall_app in H.
  destruct (proper_segment_last s Hs) as (c & Hlast & Hc).
  assert (Hn : normal_segments p = segs ++ [s]) by now apply normal_segments_absolute.
  repeat split; try assumption.
  - unfold NodePath.endsWithSlash, p.
    change (c_slash :: join [c_slash] (segs ++ [s]))
      with ([c_slash] ++ join [c_slash] (segs ++ [s])).
    rewrite last_app.
    assert (Hl : last (join [c_slash] (segs ++ [s])) = Some c).
    { destruct segs as [|b segs]; [exact Hlast|].
      cbn [app]. rewrite last_join_cons; [exact Hlast|].
      apply proper_segment_spec in Hs. tauto. }
    now rewrite Hl.
  - intros cwd. rewrite resolve_absolute by reflexivity. now rewrite Hn.
  - unfold NodePath.dirname, p. rewrite (segments_absolute _ H).
    now rewrite removelast_last.
Qed.

Lemma lookup_path_None_key w p :
  p <> [] -> NodePath.endsWithSlash p = false -> lookup_path w p = None ->
  files w !! NodePath.resolve (cwd w) [p] = None.
Proof.
  unfold lookup_path. intros Hp He. destruct p; [congruence|].
  destruct (files w !! NodePath.resolve (cwd w) [n :: p]) as [[|c]|];
    try discriminate; [|reflexivity].
  now rewrite He.
Qed.

Lemma lookup_path_Dir_key w p :
  lookup_path w p = Some Dir -> files w !! NodePath.resolve (cwd w) [p] = Some Dir.
Proof.
  unfold lookup_path. destruct p; [discriminate|].
  destruct (files w !! NodePath.resolve (cwd w) [n :: p]) as [[|c]|];
    try discriminate; [reflexivity|].
  destruct (NodePath.endsWithSlash (n :: p)); discriminate.
Qed.

Lemma lookup_path_with_file_same w p contents :
  p <> [] -> NodePath.endsWithSlash p = false ->
  lookup_path (with_file w p contents) p = Some (File contents).
Proof.
  intros Hp He. unfold lookup_path, with_file. cbn [cwd files].
  destruct p; [congruence|]. now rewrite lookup_insert_eq, He.
Qed.

(** X17: the generator of localised routes creates its output file.  When
    the working directory is absolute, [src] and [src/routes] exist,
    [src/lib/utils/routes] is a directory and the text has been computed,
    the run writes the text to [src/lib/utils/routes/localised.gen.ts]
    whether that file existed before or not (it must not be a directory),
    and touches nothing else. *)
Theorem write_localised_routes_creates
  (render : World -> jsstring -> result jsstring) (w : World) (output : jsstring) :
  let src_dir := paths [cwd w; js "src"] in
  let routes_dir := paths [src_dir; js "routes"] in
  let output_dir := paths [src_dir; js "lib"; js "utils"; js "routes"] in
  let output_path := paths [output_dir; js "localised.gen.ts"] in
  NodePath.isAbsolute (cwd w) = true ->
  existsSync w src_dir = true ->
  existsSync w routes_dir = true ->
  lookup_path w output_dir = Some Dir ->
  lookup_path w output_path <> Some Dir ->
  render w routes_dir = Return output ->
  write_localised_routes render w = Return (with_file w output_path output).
Proof.
  intros src_dir routes_dir output_dir output_path Hcwd Hsrc Hroutes Hdir Hfile Hrender.
  set (S0 := normal_segments (cwd w)).
  assert (HS0 : Forall (fun x => proper_segment x = true) S0)
    by apply normal_segments_proper.
  assert (Hsrc_eq : src_dir = c_slash :: join [c_slash] (S0 ++ [js "src"])).
  { apply (join_paths_under (cwd w) [] (js "src") Hcwd). now repeat constructor. }
  assert (Hp1 : Forall (fun x => proper_segment x = true) (S0 ++ [js "src"])).
  { apply List.Forall_app. split; [assumption | now repeat constructor]. }
  destruct (absolute_join_facts S0 (js "src") Hp1) as (Ha1 & _ & Hn1 & _ & _).
  rewrite <- Hsrc_eq in Ha1, Hn1.
  assert (Hdir_eq : output_dir
            = c_slash :: join [c_slash]
                (S0 ++ [js "src"; js "lib"; js "utils"] ++ [js "routes"])).
  { pose proof (join_paths_under src_dir [js "lib"; js "utils"] (js "routes") Ha1) as Hj.
    rewrite Hn1, <- app_assoc in Hj. apply Hj. now repeat constructor. }
  assert (Hp3 : Forall (fun x => proper_segment x = true)
                       ((S0 ++ [js "src"; js "lib"; js "utils"]) ++ [js "routes"])).
  { rewrite <- app_assoc. apply List.Forall_app.
    split; [assumption | now repeat constructor]. }
  destruct (absolute_join_facts _ (js "routes") Hp3) as (Ha3 & _ & Hn3 & Hr3 & _).
  rewrite <- app_assoc, <- Hdir_eq in Ha3, Hn3, Hr3.
  assert (Hpath_eq : output_path
            = c_slash :: join [c_slash]
                (S0 ++ [js "src"; js "lib"; js "utils"; js "routes"]
                 ++ [js "localised.gen.ts"])).
  { pose proof (join_paths_under output_dir [] (js "localised.gen.ts") Ha3) as Hj.
    rewrite Hn3, <- app_assoc in Hj. apply Hj. now repeat constructor. }
  assert (Hp4 : Forall (fun x => proper_segment x = true)
                  ((S0 ++ [js "src"; js "lib"; js "utils"; js "routes"])
                   ++ [js "localised.gen.ts"])).
  { rewrite <- app_assoc. apply List.Forall_app.
    split; [assumption | now repeat constructor]. }
  destruct (absolute_join_facts _ (js "localised.gen.ts") Hp4)
    as (_ & He4 & _ & Hr4 & Hd4).
  rewrite <- app_assoc, <- Hpath_eq in He4, Hr4, Hd4.
  assert (Hparent : NodePath.dirname output_path = output_dir).
  { rewrite Hd4, Hdir_eq. reflexivity. }
  assert (Hne : output_path <> []) by (rewrite Hpath_eq; discriminate).
  unfold write_localised_routes.
  fold (paths [cwd w; js "src"]). fold src_dir.
  unfold paths_assert.
  fold (paths [cwd w; js "src"]). fold src_dir. rewrite Hsrc. cbn [negb bind].
  fold (paths [src_dir; js "routes"]). fold routes_dir. rewrite Hroutes. cbn [negb bind].
  fold (paths [src_dir; js "lib"; js "utils"; js "routes"]). fold output_dir.
  rewrite (lookup_path_existsSync _ _ _ Hdir). cbn [negb bind].
  rewrite Hrender. cbn [bind]. fold output_path.
  unfold existsSync.
  destruct (lookup_path w output_path) as [[|old]|] eqn:Hl; cbn [negb bind].
  - congruence.
  - eapply fs_write_truncates; eassumption.
  - assert (Hcreate : writeFileSync w output_path []
                      = Return (with_file w output_path [])).
    { apply fs_write_creates; try assumption.
      - now apply lookup_path_None_key.
      - rewrite Hr4, Hparent, <- (Hr3 (cwd w)). now apply lookup_path_Dir_key. }
    rewrite Hcreate. cbn [bind].
    rewrite (fs_write_truncates _ _ [] output
               (lookup_path_with_file_same w output_path [] Hne He4)).
    now rewrite with_file_twice.
Qed.

Lemma write_localised_routes_creates_witness :
  write_localised_routes (fun _ _ => Return (js "export {}")) tree_routes
  = Return (with_file tree_routes (js "/w/src/lib/utils/routes/localised.gen.ts")
              (js "export {}")).
Proof.
  apply (write_localised_routes_creates (fun _ _ => Return (js "export {}"))
           tree_routes (js "export {}")); try reflexivity.
  discriminate.
Defined.

(* ===================================================================== *)
(** ** The output directory *)
(* ===================================================================== *)

Lemma filter_nonempty_idem (l : list jsstring) :
  List.filter (fun p => negb (jsstring_eqb p []))
    (List.filter (fun p => negb (jsstring_eqb p [])) l)
  = List.filter (fun p => negb (jsstring_eqb p [])) l.
Proof.
  induction l as [|x l IH]; [reflexivity|]. cbn [List.filter].
  destruct (negb (jsstring_eqb x [])) eqn:Hx; [|exact IH].
  cbn [List.filter]. now rewrite Hx, IH.
Qed.

Lemma join_paths_filter l :
  NodePath.join_paths l
  = NodePath.join_paths (List.filter (fun p => negb (jsstring_eqb p [])) l).
Proof. unfold NodePath.join_paths. now rewrite filter_nonempty_idem. Qed.

(** X18: the output directory is always taken below the working directory,
    segment by segment: [--out] is cut at its slashes and the pieces are
    joined to the working directory, so a leading slash does not make it an
    absolute path, and leading, trailing and doubled slashes change
    nothing. *)
Theorem out_path_below_cwd (cwd_ out s : jsstring) (segs : list jsstring) :
  NodePath.isAbsolute cwd_ = true ->
  NodePath.segments out = segs ++ [s] ->
  Forall (fun x => proper_segment x = true) (segs ++ [s]) ->
  paths (cwd_ :: split_on NodePath.is_slash out)
  = c_slash :: join [c_slash] (normal_segments cwd_ ++ segs ++ [s]).
Proof.
  intros Hcwd Hsegs Hproper. unfold paths.
  rewrite join_paths_filter. cbn [List.filter].
  destruct (isAbsolute_cons cwd_ Hcwd) as [c' ->].
  unfold jsstring_eqb at 1. rewrite bool_decide_eq_false_2 by discriminate.
  cbn [negb]. fold (NodePath.segments out). rewrite Hsegs.
  now apply join_paths_under.
Qed.

Lemma out_path_below_cwd_witness :
  paths (js "/w" :: split_on NodePath.is_slash (js "/src//lib/")) = js "/w/src/lib".
Proof.
  apply (out_path_below_cwd (js "/w") (js "/src//lib/") (js "lib") [js "src"]);
    [reflexivity | reflexivity | repeat constructor].
Defined.

(* ===================================================================== *)
(** ** taba *)
(* ===================================================================== *)

Lemma concat_replicate_length n (s : jsstring) :
  length (concat (replicate n s)) = (n * length s)%nat.
Proof.
  induction n as [|n IH]; [reflexivity|].
  cbn [replicate concat]. rewrite List.length_app, IH. lia.
Qed.

(** X19: for a level from 0 to 134217722, [taba(level)] is an indentation
    of [4 * level] spaces and nothing else; indentations add up within that
    range, [taba(a + b)] being [taba(a)] followed by [taba(b)]; [taba]
    throws exactly for a negative level and for a level above 134217722,
    where the indentation would be longer than the longest string. *)
Theorem taba_spaces (a b : Z) :
  (0 <= a)%Z -> (0 <= b)%Z -> (a + b <= 134217722)%Z ->
  exists ta tb,
    taba a = Some ta /\ taba b = Some tb
    /\ taba (a + b) = Some (ta ++ tb)
    /\ Z.of_nat (length ta) = (4 * a)%Z
    /\ Forall (fun c => c = 32) ta
    /\ forall level,
         taba level = None <-> (level < 0 \/ 134217722 < level)%Z.
Proof.
  intros Ha Hb Hab. unfold taba, repeat_string, max_string_length.
  change (Z.of_nat (length (js "    "))) with 4%Z.
  destruct (Z.ltb_spec a 0); [lia|]. destruct (Z.ltb_spec b 0); [lia|].
  destruct (Z.ltb_spec (a + b) 0); [lia|].
  destruct (Z.ltb_spec 536870888 (4 * a)); [lia|].
  destruct (Z.ltb_spec 536870888 (4 * b)); [lia|].
  destruct (Z.ltb_spec 536870888 (4 * (a + b))); [lia|].
  eexists _, _. split; [reflexivity|]. split; [reflexivity|].
  split; [|split; [|split]].
  - rewrite Z2Nat.inj_add by assumption.
    now rewrite replicate_add, List.concat_app.
  - rewrite concat_replicate_length.
    change (length (js "    ")) with 4%nat. lia.
  - generalize (Z.to_nat a). intros n. induction n as [|n IH]; [constructor|].
    cbn [replicate concat]. apply List.Forall_app. split; [|exact IH].
    now repeat constructor.
  - intros level.
    destruct (Z.ltb_spec level 0); [split; [lia | reflexivity]|].
    destruct (Z.ltb_spec 536870888 (4 * level)).
    + split; [lia | reflexivity].
    + split; [discriminate | lia].
Qed.

Lemma taba_spaces_witness :
  exists ta tb,
    taba 1 = Some ta /\ taba 2 = Some tb
    /\ taba (1 + 2) = Some (ta ++ tb)
    /\ Z.of_nat (length ta) = (4 * 1)%Z
    /\ Forall (fun c => c = 32) ta
    /\ forall level,
         taba level = None <-> (level < 0 \/ 134217722 < level)%Z.
Proof. apply (taba_spaces 1 2); lia. Defined.
